(** * emailbox-mcp-server: the new-mail notification core

    A shallow embedding of the notification checker of [shared/]
    ([EmailNotificationChecker], [ClientTracker]), of the IMAP gateway
    functions it calls ([GetLatestUID], [GetEmailsSinceUID],
    [GetEmailContents], [GetEmailPreview]) and of the Go library functions
    these rely on ([strings.TrimSpace], [strings.Fields], [strings.Join],
    [strconv.FormatUint], [strconv.ParseUint], [fmt.Sscanf] with [%d],
    [utf8.DecodeRuneInString], [unicode.IsSpace]).

    Go strings are byte sequences: they are modelled by [string], whose
    characters are the 256 byte values.  Fixed-width integers are modelled
    by [Z] with the wrap-around written out. *)

From Stdlib Require Import ZArith Lia Bool Ascii String.
From stdpp Require Import base tactics option list sorting strings gmap.

Local Open Scope string_scope.
Local Open Scope Z_scope.

(** ** Fixed-width integers *)

(** [uint32(x)]: conversion to (and arithmetic in) an unsigned 32-bit integer. *)
Definition u32 (z : Z) : Z := z mod 2 ^ 32.

(** [int32(x)] and [int64(x)]: two's complement wrap-around. *)
Definition i32 (z : Z) : Z := (z + 2 ^ 31) mod 2 ^ 32 - 2 ^ 31.
Definition i64 (z : Z) : Z := (z + 2 ^ 63) mod 2 ^ 64 - 2 ^ 63.

(** ** Results of fallible calls: a value or a Go [error] (its message) *)

Inductive result (A : Type) : Type :=
| Ok (a : A)
| Err (msg : string).
Arguments Ok {A} a.
Arguments Err {A} msg.

#[global] Instance result_ret : MRet result := fun A a => Ok a.
#[global] Instance result_bind : MBind result := fun A B k r =>
  match r with
  | Ok a => k a
  | Err e => Err e
  end.

(** [wrap_err prefix r]: [fmt.Errorf(prefix + ": %w", err)] on the error path. *)
Definition wrap_err {A : Type} (prefix : string) (r : result A) : result A :=
  match r with
  | Ok a => Ok a
  | Err e => Err (prefix +:+ ": " +:+ e)
  end.

(** ** Bytes and decimal numerals *)

Definition byte (a : ascii) : Z := Z.of_N (N_of_ascii a).
Definition chr (z : Z) : ascii := ascii_of_N (Z.to_N z).

(** [len(s)] as a Go [int]. *)
Definition len (s : string) : Z := Z.of_nat (String.length s).

Definition is_digit (a : ascii) : bool := (48 <=? byte a) && (byte a <=? 57).

(** The loop of [strconv.FormatUint(n, 10)]: least significant digit first,
    written in front of what is already there; [fuel] bounds the number of
    digits (20 are enough for a [uint64]). *)
Fixpoint format_dec (fuel : nat) (n : Z) (acc : string) : string :=
  match fuel with
  | O => acc
  | S fuel' =>
      let acc' := String (chr (48 + n mod 10)) acc in
      if n <? 10 then acc' else format_dec fuel' (n / 10) acc'
  end.

Definition FormatUint (n : Z) : string := format_dec 20 n "".

(** The value of a run of decimal digits, as [strconv.ParseUint(s, 10, 64)]
    reads the token of a scan: [None] on a byte that is not a decimal
    digit. *)
Fixpoint parse_dec (s : string) (acc : Z) : option Z :=
  match s with
  | EmptyString => Some acc
  | String a rest =>
      if is_digit a then parse_dec rest (10 * acc + (byte a - 48)) else None
  end.

(** The loop of [strconv.ParseUint(s, 10, 32)] over the bytes of [s], with
    [n] the value read so far: a byte that is not a decimal digit is a
    syntax error, a digit that takes the value above [2^32 - 1] a range
    error, whichever comes first.  ([n] never reaches the 64-bit cutoff of
    the Go loop, since it stays below [2^32].)  The error is given by its
    function and kind; the text of the Go error has the quoted input
    between the two. *)
Fixpoint parse_uint_loop (s : string) (n : Z) : result Z :=
  match s with
  | EmptyString => Ok n
  | String c rest =>
      if is_digit c then
        let n1 := 10 * n + (byte c - 48) in
        if 2 ^ 32 - 1 <? n1 then Err "strconv.ParseUint: value out of range"
        else parse_uint_loop rest n1
      else Err "strconv.ParseUint: invalid syntax"
  end.

(** [strconv.ParseUint(s, 10, 32)]: the empty string is a syntax error. *)
Definition ParseUint32 (s : string) : result Z :=
  match s with
  | EmptyString => Err "strconv.ParseUint: invalid syntax"
  | _ => parse_uint_loop s 0
  end.

(** ** UTF-8 decoding and white space, as [unicode/utf8] and [unicode] do it *)

Definition RuneError : Z := 65533.

(** The [first] table of [unicode/utf8]: what the first byte of a sequence
    announces. [Lead sz lo hi]: a sequence of [sz] bytes whose second byte
    must lie in [lo..hi]. *)
Inductive first_info : Type :=
| Single
| Illegal
| Lead (sz : nat) (lo hi : Z).

Definition first (b : Z) : first_info :=
  if b <? 128 then Single
  else if b <? 194 then Illegal
  else if b <? 224 then Lead 2 128 191
  else if b =? 224 then Lead 3 160 191
  else if b <? 237 then Lead 3 128 191
  else if b =? 237 then Lead 3 128 159
  else if b <? 240 then Lead 3 128 191
  else if b =? 240 then Lead 4 144 191
  else if b <? 244 then Lead 4 128 191
  else if b =? 244 then Lead 4 128 143
  else Illegal.

(** A continuation byte lies in [locb..hicb] = [0x80..0xBF]. *)
Definition is_cont (b : Z) : bool := (128 <=? b) && (b <=? 191).

(** [utf8.DecodeRuneInString]: the rune at the head of [s] and its width in
    bytes; [(RuneError, 1)] on an invalid or truncated sequence,
    [(RuneError, 0)] on the empty string. *)
Definition DecodeRuneInString (s : string) : Z * nat :=
  match s with
  | EmptyString => (RuneError, 0%nat)
  | String a0 r0 =>
      let s0 := byte a0 in
      match first s0 with
      | Single => (s0, 1%nat)
      | Illegal => (RuneError, 1%nat)
      | Lead sz lo hi =>
          if (String.length s <? sz)%nat then (RuneError, 1%nat) else
          match r0 with
          | EmptyString => (RuneError, 1%nat)
          | String a1 r1 =>
              let s1 := byte a1 in
              if (s1 <? lo) || (hi <? s1) then (RuneError, 1%nat) else
              if (sz <=? 2)%nat then
                (Z.lor (Z.shiftl (Z.land s0 31) 6) (Z.land s1 63), 2%nat)
              else
              match r1 with
              | EmptyString => (RuneError, 1%nat)
              | String a2 r2 =>
                  let s2 := byte a2 in
                  if negb (is_cont s2) then (RuneError, 1%nat) else
                  if (sz <=? 3)%nat then
                    (Z.lor (Z.lor (Z.shiftl (Z.land s0 15) 12)
                                  (Z.shiftl (Z.land s1 63) 6))
                           (Z.land s2 63), 3%nat)
                  else
                  match r2 with
                  | EmptyString => (RuneError, 1%nat)
                  | String a3 _ =>
                      let s3 := byte a3 in
                      if negb (is_cont s3) then (RuneError, 1%nat) else
                      (Z.lor (Z.lor (Z.lor (Z.shiftl (Z.land s0 7) 18)
                                           (Z.shiftl (Z.land s1 63) 12))
                                    (Z.shiftl (Z.land s2 63) 6))
                             (Z.land s3 63), 4%nat)
                  end
              end
          end
      end
  end.

(** [unicode.IsSpace]: the Latin-1 cases, then the [White_Space] table. *)
Definition IsSpace (r : Z) : bool :=
  if r <=? 255 then
    ((9 <=? r) && (r <=? 13)) || (r =? 32) || (r =? 133) || (r =? 160)
  else
    (r =? 5760) || ((8192 <=? r) && (r <=? 8202)) || (r =? 8232) || (r =? 8233)
    || (r =? 8239) || (r =? 8287) || (r =? 12288).

(** A decoded rune together with the bytes it was decoded from. *)
Record rune : Type := Rune { rune_val : Z; rune_bytes : string }.

(** The runes of [s] in order, as a [for _, r := range s] loop sees them.
    [skip] counts the bytes of the rune decoded last that are still ahead. *)
Fixpoint runes_from (skip : nat) (s : string) : list rune :=
  match s with
  | EmptyString => []
  | String _ rest =>
      match skip with
      | S k => runes_from k rest
      | O =>
          let '(r, w) := DecodeRuneInString s in
          Rune r (substring 0 w s) :: runes_from (w - 1) rest
      end
  end.

Definition runes (s : string) : list rune := runes_from 0 s.

Definition bytes_of (rs : list rune) : string :=
  foldr (fun r acc => rune_bytes r +:+ acc) "" rs.

Fixpoint drop_space (rs : list rune) : list rune :=
  match rs with
  | [] => []
  | r :: rs' => if IsSpace (rune_val r) then drop_space rs' else rs
  end.

(** [strings.TrimSpace]: [s] without its leading and trailing white-space
    runes.  (Go decodes the tail backwards with [DecodeLastRuneInString];
    a white-space rune is found at the end that way exactly when the
    forward decoding ends with it, since no encoding of a white-space rune
    starts with a continuation byte.) *)
Definition TrimSpace (s : string) : string :=
  bytes_of (rev (drop_space (rev (drop_space (runes s))))).

(** The span loop of [strings.FieldsFunc(s, unicode.IsSpace)]: [cur] holds
    the bytes of the field being read. *)
Fixpoint fields_loop (cur : string) (rs : list rune) : list string :=
  match rs with
  | [] => match cur with EmptyString => [] | _ => [cur] end
  | r :: rs' =>
      if IsSpace (rune_val r) then
        match cur with
        | EmptyString => fields_loop "" rs'
        | _ => cur :: fields_loop "" rs'
        end
      else fields_loop (cur +:+ rune_bytes r) rs'
  end.

(** [strings.Fields]. *)
Definition Fields (s : string) : list string := fields_loop "" (runes s).

(** [strings.Join]. *)
Fixpoint Join (elems : list string) (sep : string) : string :=
  match elems with
  | [] => ""
  | [e] => e
  | e :: rest => e +:+ sep +:+ Join rest sep
  end.

(** ** [GetEmailPreview] (shared/imap.go) *)

(** [s[:n]]: [None] stands for the run-time panic on a bound that is
    negative or beyond [len(s)]. *)
Definition slice_to (s : string) (n : Z) : option string :=
  if (0 <=? n) && (n <=? len s) then Some (substring 0 (Z.to_nat n) s) else None.

Definition GetEmailPreview (body : string) (maxLen : Z) : option string :=
  let body := TrimSpace body in
  let body := Join (Fields body) " " in
  if len body <=? maxLen then Some body
  else s ← slice_to body maxLen; Some (s +:+ "...").

Definition tab : string := String (chr 9) "".
Definition nbsp : string := String (chr 194) (String (chr 160) "").
Definition e_acute : string := String (chr 195) (String (chr 169) "").


(** ** [time.Time] and its RFC 3339 rendering *)

(** A [time.Time] by the fields [Format] reads off it: the civil date and
    clock in the value's location, and that location's offset from UTC in
    seconds. *)
Record Time : Type := mkTime {
  t_year : Z; t_month : Z; t_day : Z;
  t_hour : Z; t_min : Z; t_sec : Z;
  t_offset : Z
}.

(** [time.Time{}]: January 1, year 1, 00:00:00 UTC. *)
Definition zero_time : Time := mkTime 1 1 1 0 0 0 0.

Fixpoint zeros (n : nat) : string :=
  match n with
  | O => ""
  | S n' => String "0" (zeros n')
  end.

(** [appendInt(b, x, width)] of package [time]: the decimal form of [x],
    zero-padded to [width] digits, after a minus sign when [x] is negative. *)
Definition appendInt (x : Z) (width : nat) : string :=
  let digits := FormatUint (Z.abs x) in
  (if x <? 0 then "-" else "")
  +:+ zeros (width - String.length digits) +:+ digits.

(** [t.Format(time.RFC3339)]. *)
Definition FormatRFC3339 (t : Time) : string :=
  appendInt (t_year t) 4 +:+ "-" +:+ appendInt (t_month t) 2 +:+ "-"
  +:+ appendInt (t_day t) 2 +:+ "T" +:+ appendInt (t_hour t) 2 +:+ ":"
  +:+ appendInt (t_min t) 2 +:+ ":" +:+ appendInt (t_sec t) 2
  +:+ (if t_offset t =? 0 then "Z"
       else
         let zone := Z.quot (t_offset t) 60 in
         (if zone <? 0 then "-" else "+")
         +:+ appendInt (Z.quot (Z.abs zone) 60) 2 +:+ ":"
         +:+ appendInt (Z.rem (Z.abs zone) 60) 2).


(** ** Data model (shared/imap.go) *)

Module Email.
Record t : Type := mk {
  ID : string;
  From : string;
  Subject : string;
  Date : Time;
  Read : bool
}.
End Email.

Module AttachmentInfo.
Record t : Type := mk {
  Index : Z;
  Filename : string;
  ContentType : string;
  Size : Z
}.
End AttachmentInfo.

Module EmailDetail.
Record t : Type := mk {
  ID : string;
  From : string;
  To : list string;
  CC : list string;
  Subject : string;
  Date : Time;
  Body : string;
  ContentType : string;
  Read : bool;
  Attachments : list AttachmentInfo.t
}.
End EmailDetail.

(** ** What the IMAP library hands back (go-imap v2) *)

Module Address.
Record t : Type := mk { Name : string; Mailbox : string; Host : string }.

(** The method [Addr] of [imap.Address]. *)
Definition Addr (a : t) : string :=
  if bool_decide (Mailbox a = "") || bool_decide (Host a = "") then ""
  else Mailbox a +:+ "@" +:+ Host a.
End Address.

Module Envelope.
Record t : Type := mk {
  Date : Time;
  Subject : string;
  From : list Address.t;
  To : list Address.t;
  Cc : list Address.t
}.
End Envelope.

(** One entry of [FetchMessageBuffer.BodySection]: whether it answers the
    request for the whole message ([FetchItemBodySection{}]) and its bytes
    ([None] for a nil slice). *)
Module BodySection.
Record t : Type := mk { Whole : bool; Bytes : option string }.
End BodySection.

Module Msg.
(** [imapclient.FetchMessageBuffer]; [UID] is an [imap.UID], a [uint32]. *)
Record t : Type := mk {
  UID : Z;
  Flags : list string;
  Envelope : option Envelope.t;
  BodySection : list BodySection.t
}.

(** The method [FindBodySection(&imap.FetchItemBodySection{})] of the buffer. *)
Fixpoint FindBodySection (l : list BodySection.t) : option string :=
  match l with
  | [] => None
  | s :: l' => if BodySection.Whole s then BodySection.Bytes s else FindBodySection l'
  end.
End Msg.

Definition FlagSeen : string := "\Seen".

(** [imap.SelectData]: [NumMessages] is a [uint32], [UIDNext] an [imap.UID]. *)
Record SelectData : Type := mkSelectData { NumMessages : Z; UIDNext : Z }.

(** The mailbox server as one call of the gateway sees it: the outcome of
    dialling and logging in, of [SELECT INBOX], and of each [FETCH] the
    gateway can issue.  Nothing is assumed of the answers: a fetch may
    return any messages, in any order. *)
Record IMAPServer : Type := mkIMAPServer {
  srv_dial : result unit;
  srv_login : result unit;
  srv_select : result SelectData;
  (** [FETCH n (UID)] by sequence number *)
  srv_fetch_seq : Z -> result (list Msg.t);
  (** [UID FETCH lo:hi (ENVELOPE FLAGS UID)]; [hi = 0] stands for the star *)
  srv_fetch_uid_range : Z -> Z -> result (list Msg.t);
  (** [UID FETCH uid (ENVELOPE FLAGS UID BODY[])] *)
  srv_fetch_uid_body : Z -> result (list Msg.t)
}.

(** ** The gateway (shared/imap.go) *)

(** [fmt.Sscanf(s, "%d", &u)] with [u] a [uint32]: leading white space is
    skipped (a newline there is an error), then the longest run of decimal
    digits is read (the scan stops at the first other character) and
    parsed as a number that must fit 32 bits.  [None] stands for a scan
    error, which leaves the destination as it was. *)
Fixpoint skip_space (rs : list rune) : option (list rune) :=
  match rs with
  | [] => Some []
  | r :: rs' =>
      if rune_val r =? 10 then None
      else if IsSpace (rune_val r) then skip_space rs'
      else Some rs
  end.

Definition is_number_rune (r : rune) : bool :=
  (48 <=? rune_val r) && (rune_val r <=? 57).

Fixpoint scanNumber (rs : list rune) : string :=
  match rs with
  | [] => ""
  | r :: rs' => if is_number_rune r then rune_bytes r +:+ scanNumber rs' else ""
  end.

Definition Sscanf_uint32 (s : string) : option Z :=
  rs ← skip_space (runes s);
  match scanNumber rs with
  | EmptyString => None
  | tok => v ← parse_dec tok 0; if v <? 2 ^ 32 then Some v else None
  end.

(** The flag loop with its [break]. *)
Definition isSeen (flags : list string) : bool :=
  existsb (String.eqb FlagSeen) flags.

Definition display_from (addr : Address.t) : string :=
  if bool_decide (Address.Name addr = "") then Address.Addr addr
  else Address.Name addr +:+ " <" +:+ Address.Addr addr +:+ ">".

Definition envelope_from (env : option Envelope.t) : string :=
  match env with
  | Some e => match Envelope.From e with addr :: _ => display_from addr | [] => "" end
  | None => ""
  end.

Definition envelope_subject (env : option Envelope.t) : string :=
  match env with Some e => Envelope.Subject e | None => "" end.

Definition envelope_date (env : option Envelope.t) : Time :=
  match env with Some e => Envelope.Date e | None => zero_time end.

(** The [*Email] built from one fetched message. *)
Definition email_of_msg (msg : Msg.t) : Email.t :=
  Email.mk (FormatUint (u32 (Msg.UID msg)))
           (envelope_from (Msg.Envelope msg))
           (envelope_subject (Msg.Envelope msg))
           (envelope_date (Msg.Envelope msg))
           (isSeen (Msg.Flags msg)).

(** [Connect]: dial, then log in. *)
Definition Connect (srv : IMAPServer) : result unit :=
  _ ← wrap_err "failed to connect to IMAP server" (srv_dial srv);
  wrap_err "failed to login" (srv_login srv).

(** [GetLatestUID]: the UID of the message with the highest sequence
    number, 0 for an empty mailbox. *)
Definition GetLatestUID (srv : IMAPServer) : result Z :=
  _ ← Connect srv;
  mbox ← wrap_err "failed to select INBOX" (srv_select srv);
  if u32 (NumMessages mbox) =? 0 then Ok 0 else
  messages ← wrap_err "failed to fetch latest message"
                      (srv_fetch_seq srv (u32 (NumMessages mbox)));
  match messages with
  | [] => Ok 0
  | m :: _ => Ok (u32 (Msg.UID m))
  end.

(** The loop of [GetEmailsSinceUID] over the fetched messages: a message
    whose UID is not above [sinceUID] is skipped, the others are appended
    in the order of the response. *)
Fixpoint emails_since (sinceUID : Z) (messages : list Msg.t) : list Email.t :=
  match messages with
  | [] => []
  | msg :: rest =>
      if u32 (Msg.UID msg) <=? sinceUID then emails_since sinceUID rest
      else email_of_msg msg :: emails_since sinceUID rest
  end.

Definition GetEmailsSinceUID (srv : IMAPServer) (sinceUID : Z) : result (list Email.t) :=
  _ ← Connect srv;
  mbox ← wrap_err "failed to select INBOX" (srv_select srv);
  if u32 (UIDNext mbox) <=? u32 (sinceUID + 1) then Ok [] else
  messages ← wrap_err "failed to fetch messages"
                      (srv_fetch_uid_range srv (u32 (sinceUID + 1)) 0);
  Ok (emails_since sinceUID messages).

(** ** Notifications (shared/handlers.go) *)

(** A value of a [map[string]any]; the checker only stores strings. *)
Inductive any : Type :=
| AnyString (s : string).

(** The lines the checker and the tracker write with [log.Printf], by
    format string, with the arguments of the call. *)
Inductive LogEntry : Type :=
| LogNotificationsDisabled
| LogInitialUIDFailed (err : string)
| LogStarted (interval : Z)
| LogStopped
| LogChecking (sinceUID : Z)
| LogCheckError (err : string)
| LogCheckComplete (found : nat)
| LogNewEmail (id from subject : string)
| LogClientConnected (total : Z)
| LogClientDisconnected (total : Z).

(** What a call does to the outside, in order: a log line, a call of
    [SendNotificationToAllClients] on the broadcaster, a run-time panic
    (which ends the process).  [EvStartCalled] and [EvStopCalled] mark the
    entry into [Start] and [Stop], so that calls can be counted. *)
Inductive Event : Type :=
| EvLog (l : LogEntry)
| EvBroadcast (method : string) (params : gmap string any)
| EvPanic (why : string)
| EvStartCalled
| EvStopCalled.

(** [*server.MCPServer], by the one thing the checker asks of it: whether
    its dynamic type has the method [SendNotificationToAllClients]. *)
Record MCPServer : Type := mkMCPServer { has_SendNotificationToAllClients : bool }.

Record Config : Type := mkConfig { CheckIntervalSeconds : Z }.

(** The goroutine that [Start] spawns: the period of its ticker and
    whether its context has been cancelled. *)
Record Goroutine : Type := mkGoroutine { g_interval : Z; g_cancelled : bool }.

Record EmailNotificationChecker : Type := mkChecker {
  config : Config;
  lastUID : Z;
  broadcaster : option MCPServer;
  running : bool;
  (** [cancelFunc != nil] *)
  cancelFunc : bool;
  (** the parent context, by name; [None] is nil *)
  ctx : option nat;
  (** the live goroutine of this checker, if any *)
  loop : option Goroutine
}.

Definition set_lastUID (u : Z) (c : EmailNotificationChecker) :=
  mkChecker (config c) u (broadcaster c) (running c) (cancelFunc c) (ctx c) (loop c).
Definition set_running (b : bool) (c : EmailNotificationChecker) :=
  mkChecker (config c) (lastUID c) (broadcaster c) b (cancelFunc c) (ctx c) (loop c).
Definition set_cancelFunc (b : bool) (c : EmailNotificationChecker) :=
  mkChecker (config c) (lastUID c) (broadcaster c) (running c) b (ctx c) (loop c).
Definition set_loop (g : option Goroutine) (c : EmailNotificationChecker) :=
  mkChecker (config c) (lastUID c) (broadcaster c) (running c) (cancelFunc c) (ctx c) g.

Definition NewEmailNotificationChecker (cfg : Config) (mcpServer : MCPServer)
  : EmailNotificationChecker :=
  mkChecker cfg 0
            (if has_SendNotificationToAllClients mcpServer then Some mcpServer else None)
            false false None None.

Definition SetContext (parent : nat) (c : EmailNotificationChecker) :=
  mkChecker (config c) (lastUID c) (broadcaster c) (running c) (cancelFunc c)
            (Some parent) (loop c).

(** The params of one [new_email] notification. *)
Definition new_email_params (email : Email.t) (preview : string) : gmap string any :=
  <["title" := AnyString ("New Email Received. From: " +:+ Email.From email
                          +:+ ", Subject: " +:+ Email.Subject email)]>
  (<["email_id" := AnyString (Email.ID email)]>
  (<["from" := AnyString (Email.From email)]>
  (<["subject" := AnyString (Email.Subject email)]>
  (<["received_at" := AnyString (FormatRFC3339 (Email.Date email))]>
  (<["preview" := AnyString preview]> ∅))))).

(** [time.Duration(seconds) * time.Second], an [int64] count of nanoseconds. *)
Definition check_interval (cfg : Config) : Z :=
  i64 (i64 (CheckIntervalSeconds cfg) * 1000000000).

Section Checker.

(** [parseEmailBodyWithGoMessage] reads a raw message with the go-message
    MIME reader and returns body, content type and attachments.  What it
    computes depends on that library alone, so it is kept as a parameter. *)
Variable parseEmailBodyWithGoMessage :
  string -> string * string * list AttachmentInfo.t.

(** [GetEmailContents]. *)
Definition GetEmailContents (srv : IMAPServer) (emailID : string)
  : result EmailDetail.t :=
  uid ← wrap_err "invalid email ID" (ParseUint32 emailID);
  _ ← Connect srv;
  _ ← wrap_err "failed to select INBOX" (srv_select srv);
  messages ← wrap_err "failed to fetch message" (srv_fetch_uid_body srv uid);
  match messages with
  | [] => Err "email not found"
  | msg :: _ =>
      let env := Msg.Envelope msg in
      let to := match env with Some e => Address.Addr <$> Envelope.To e | None => [] end in
      let cc := match env with Some e => Address.Addr <$> Envelope.Cc e | None => [] end in
      let rawBody :=
        match Msg.FindBodySection (Msg.BodySection msg) with
        | Some data => Some data
        | None =>
            match Msg.BodySection msg with
            | s :: _ => BodySection.Bytes s
            | [] => None
            end
        end in
      let '(body, contentType, attachments) :=
        match rawBody with
        | Some raw => parseEmailBodyWithGoMessage raw
        | None => ("", "text/plain", [])
        end in
      Ok (EmailDetail.mk emailID (envelope_from env) to cc (envelope_subject env)
                         (envelope_date env) body contentType
                         (isSeen (Msg.Flags msg)) attachments)
  end.

(** The body of the [for _, email := range newEmails] loop of
    [checkForNewEmails], and the loop.  A panic ends the run. *)
Fixpoint notify_loop (srv : IMAPServer) (newEmails : list Email.t)
  (c : EmailNotificationChecker) : EmailNotificationChecker * list Event :=
  match newEmails with
  | [] => (c, [])
  | email :: rest =>
      let emailUID := default 0 (Sscanf_uint32 (Email.ID email)) in
      let c := if lastUID c <? emailUID then set_lastUID emailUID c else c in
      let preview :=
        match GetEmailContents srv (Email.ID email) with
        | Ok detail => GetEmailPreview (EmailDetail.Body detail) 100
        | Err _ => Some ""
        end in
      let line :=
        EvLog (LogNewEmail (Email.ID email) (Email.From email) (Email.Subject email)) in
      match preview, broadcaster c with
      | None, _ => (c, [EvPanic "slice bounds out of range"])
      | Some _, None => (c, [line; EvPanic "nil pointer dereference"])
      | Some p, Some _ =>
          let '(c', evs) := notify_loop srv rest c in
          (c', line :: EvBroadcast "new_email" (new_email_params email p) :: evs)
      end
  end.

(** [checkForNewEmails]: one poll cycle. *)
Definition checkForNewEmails (srv : IMAPServer) (c : EmailNotificationChecker)
  : EmailNotificationChecker * list Event :=
  let currentLastUID := lastUID c in
  match GetEmailsSinceUID srv currentLastUID with
  | Err e => (c, [EvLog (LogChecking currentLastUID); EvLog (LogCheckError e)])
  | Ok newEmails =>
      let '(c', evs) := notify_loop srv newEmails c in
      (c', EvLog (LogChecking currentLastUID)
           :: EvLog (LogCheckComplete (length newEmails)) :: evs)
  end.

(** [Start].  The goroutine it spawns is run up to its [select]: it logs
    that it started and creates its ticker, and [time.NewTicker] panics on
    a period that is not positive. *)
Definition Start (srv : IMAPServer) (c : EmailNotificationChecker)
  : EmailNotificationChecker * list Event :=
  match broadcaster c with
  | None => (c, [EvStartCalled; EvLog LogNotificationsDisabled])
  | Some _ =>
      if running c then (c, [EvStartCalled]) else
      let '(uid, warn) :=
        match GetLatestUID srv with
        | Ok uid => (uid, [])
        | Err e => (0, [EvLog (LogInitialUIDFailed e)])
        end in
      let c := set_lastUID uid c in
      let c := set_cancelFunc true c in
      let interval := check_interval (config c) in
      let c := set_running true c in
      if 0 <? interval then
        (set_loop (Some (mkGoroutine interval false)) c,
         EvStartCalled :: warn ++ [EvLog (LogStarted interval)])
      else
        (c, EvStartCalled :: warn
            ++ [EvLog (LogStarted interval);
                EvPanic "non-positive interval for NewTicker"])
  end.

(** [Stop]: cancels the context of the goroutine, once. *)
Definition Stop (c : EmailNotificationChecker)
  : EmailNotificationChecker * list Event :=
  if cancelFunc c then
    let g := (fun g => mkGoroutine (g_interval g) true) <$> loop c in
    (set_cancelFunc false (set_loop g c), [EvStopCalled])
  else (c, [EvStopCalled]).


(** The two cases of the goroutine's [select]. *)

(** [case <-ticker.C]: one poll cycle, when a goroutine is there to run it. *)
Definition loop_tick (srv : IMAPServer) (c : EmailNotificationChecker)
  : EmailNotificationChecker * list Event :=
  match loop c with
  | Some _ => checkForNewEmails srv c
  | None => (c, [])
  end.

(** [case <-ctx.Done()]: the goroutine logs and returns; its deferred calls
    stop the ticker and clear [running]. *)
Definition loop_done (c : EmailNotificationChecker)
  : EmailNotificationChecker * list Event :=
  match loop c with
  | Some g =>
      if g_cancelled g then (set_running false (set_loop None c), [EvLog LogStopped])
      else (c, [])
  | None => (c, [])
  end.

(** ** [ClientTracker] *)

Record ClientTracker : Type := mkTracker {
  (** an [atomic.Int32] *)
  clientCount : Z;
  checker : option EmailNotificationChecker
}.

Definition NewClientTracker (c : EmailNotificationChecker) : ClientTracker :=
  mkTracker 0 (Some c).

Definition SetChecker (c : option EmailNotificationChecker) (t : ClientTracker)
  : ClientTracker :=
  mkTracker (clientCount t) c.

Definition OnClientConnected (srv : IMAPServer) (t : ClientTracker)
  : ClientTracker * list Event :=
  let count := i32 (clientCount t + 1) in
  let line := EvLog (LogClientConnected count) in
  match count =? 1, checker t with
  | true, Some c =>
      let '(c', evs) := Start srv c in
      (mkTracker count (Some c'), line :: evs)
  | _, _ => (mkTracker count (checker t), [line])
  end.

Definition OnClientDisconnected (t : ClientTracker) : ClientTracker * list Event :=
  let count := i32 (clientCount t + -1) in
  let line := EvLog (LogClientDisconnected count) in
  match count =? 0, checker t with
  | true, Some c =>
      let '(c', evs) := Stop c in
      (mkTracker count (Some c'), line :: evs)
  | _, _ => (mkTracker count (checker t), [line])
  end.

Definition GetClientCount (t : ClientTracker) : Z := clientCount t.

(** [StartEmailNotificationChecker] (STDIO mode) and
    [SetupHTTPNotificationChecker] (HTTP mode). *)
Definition StartEmailNotificationChecker (srv : IMAPServer) (parent : nat)
  (mcpServer : MCPServer) (cfg : Config) : EmailNotificationChecker * list Event :=
  Start srv (SetContext parent (NewEmailNotificationChecker cfg mcpServer)).

Definition SetupHTTPNotificationChecker (parent : nat) (mcpServer : MCPServer)
  (cfg : Config) : ClientTracker :=
  NewClientTracker (SetContext parent (NewEmailNotificationChecker cfg mcpServer)).

End Checker.

(** * Observations used in the statements *)

(** Every byte is a decimal digit. *)
Fixpoint all_digits (s : string) : bool :=
  match s with
  | EmptyString => true
  | String a rest => is_digit a && all_digits rest
  end.

(** The notifications of a trace, in the order they were handed to the
    broadcaster: method and params. *)
Definition broadcasts (evs : list Event) : list (string * gmap string any) :=
  omap (fun ev => match ev with EvBroadcast m p => Some (m, p) | _ => None end) evs.

Definition string_field (key : string) (params : gmap string any) : option string :=
  match params !! key with
  | Some (AnyString s) => Some s
  | None => None
  end.

(** The [email_id] of each notification of a trace, and the UIDs they spell. *)
Definition notified_ids (evs : list Event) : list string :=
  omap (fun mp => string_field "email_id" mp.2) (broadcasts evs).

Definition notified_uids (evs : list Event) : list Z :=
  omap (fun id => parse_dec id 0) (notified_ids evs).

Definition is_start_call (ev : Event) : bool :=
  match ev with EvStartCalled => true | _ => false end.
Definition is_stop_call (ev : Event) : bool :=
  match ev with EvStopCalled => true | _ => false end.

(** How often [Start] and [Stop] were entered in a trace. *)
Definition start_calls (evs : list Event) : nat := length (filter is_start_call evs).
Definition stop_calls (evs : list Event) : nat := length (filter is_stop_call evs).

(** The six keys of the params object that [checkForNewEmails] builds. *)
Definition notification_keys : gset string :=
  {[ "title"; "email_id"; "from"; "subject"; "received_at"; "preview" ]}.

(** The five keys the payload contract lists. *)
Definition contract_keys : gset string :=
  {[ "email_id"; "from"; "subject"; "received_at"; "preview" ]}.

(** The session events of the transport. *)
Inductive ClientEvent : Type :=
| ClientConnects
| ClientDisconnects.

(** Connects minus disconnects. *)
Fixpoint net (es : list ClientEvent) : Z :=
  match es with
  | [] => 0
  | ClientConnects :: es' => 1 + net es'
  | ClientDisconnects :: es' => -1 + net es'
  end.

(** No moment at which more clients have left than have come. *)
Definition paired (es : list ClientEvent) : Prop :=
  forall k : nat, 0 <= net (take k es).

(** Poll cycles one after the other, each against the mailbox as it is at
    that tick. *)
Fixpoint run_cycles (parse : string -> string * string * list AttachmentInfo.t)
  (srvs : list IMAPServer) (c : EmailNotificationChecker)
  : EmailNotificationChecker :=
  match srvs with
  | [] => c
  | srv :: srvs' => run_cycles parse srvs' (checkForNewEmails parse srv c).1
  end.

(** The values [lastUID] holds in turn while the loop of
    [checkForNewEmails] runs over [newEmails]: the value after each pass
    through the guarded assignment at the head of the loop body, which is
    the value the run of the loop over the first [k] emails ends with. *)
Definition loop_watermarks (parse : string -> string * string * list AttachmentInfo.t)
  (srv : IMAPServer) (newEmails : list Email.t) (c : EmailNotificationChecker)
  : list Z :=
  (fun k => lastUID (notify_loop parse srv (take k newEmails) c).1)
    <$> seq 1 (length newEmails).

(** The same for one poll cycle: a cycle whose fetch fails assigns
    nothing. *)
Definition cycle_watermarks (parse : string -> string * string * list AttachmentInfo.t)
  (srv : IMAPServer) (c : EmailNotificationChecker) : list Z :=
  match GetEmailsSinceUID srv (lastUID c) with
  | Err _ => []
  | Ok newEmails => loop_watermarks parse srv newEmails c
  end.

(** The values [lastUID] holds, in the order of time, over the poll
    cycles of [run_cycles]. *)
Fixpoint watermark_history (parse : string -> string * string * list AttachmentInfo.t)
  (srvs : list IMAPServer) (c : EmailNotificationChecker) : list Z :=
  match srvs with
  | [] => []
  | srv :: srvs' =>
      cycle_watermarks parse srv c
      ++ watermark_history parse srvs' (checkForNewEmails parse srv c).1
  end.

Definition on_event (srv : IMAPServer) (e : ClientEvent) (t : ClientTracker)
  : ClientTracker * list Event :=
  match e with
  | ClientConnects => OnClientConnected srv t
  | ClientDisconnects => OnClientDisconnected t
  end.

(** The session hooks called for a sequence of events. *)
Fixpoint run_events (srv : IMAPServer) (es : list ClientEvent) (t : ClientTracker)
  : ClientTracker * list Event :=
  match es with
  | [] => (t, [])
  | e :: es' =>
      let '(t1, evs1) := on_event srv e t in
      let '(t2, evs2) := run_events srv es' t1 in
      (t2, (evs1 ++ evs2)%list)
  end.

(** The first two statements of [GetEmailPreview]: the body with its white
    space normalized. *)
Definition normalize_space (body : string) : string :=
  Join (Fields (TrimSpace body)) " ".

(** The preview [checkForNewEmails] puts into the notification of [email]. *)
Definition preview_of (parse : string -> string * string * list AttachmentInfo.t)
  (srv : IMAPServer) (email : Email.t) : string :=
  match GetEmailContents parse srv (Email.ID email) with
  | Ok detail => default "" (GetEmailPreview (EmailDetail.Body detail) 100)
  | Err _ => ""
  end.

(** * Example mailboxes *)

(** The fallback of [parseEmailBodyWithGoMessage], taken for every
    message: the raw content as a plain-text body. *)
Definition raw_parse (data : string) : string * string * list AttachmentInfo.t :=
  (data, "text/plain", []).

Definition noon : Time := mkTime 2024 5 17 12 0 0 0.

Definition ann : Address.t := Address.mk "Ann" "ann" "example.org".

(** A message from Ann with the given UID, as a fetch with body returns it. *)
Definition msg_of (uid : Z) : Msg.t :=
  Msg.mk uid [] (Some (Envelope.mk noon "Hello" [ann] [] []))
         [BodySection.mk true (Some "Hi  there")].

(** A mailbox that answers every range fetch with the messages [uids], in
    that order, announces [uidnext] as the next UID, and serves bodies or
    not. *)
Definition mailbox (uids : list Z) (uidnext : Z) (bodies : bool) : IMAPServer :=
  mkIMAPServer (Ok tt) (Ok tt)
    (Ok (mkSelectData (Z.of_nat (length uids)) uidnext))
    (fun n => Ok (msg_of <$> drop (Z.to_nat n - 1) uids))
    (fun lo hi => Ok (msg_of <$> uids))
    (fun uid => if bodies then Ok [msg_of uid] else Err "connection reset").

(** A mailbox that cannot be reached. *)
Definition unreachable : IMAPServer :=
  mkIMAPServer (Err "timeout") (Ok tt) (Ok (mkSelectData 0 1))
    (fun _ => Ok []) (fun _ _ => Ok []) (fun _ => Ok []).

(** A running checker with a broadcaster, a 30 s interval and the given
    watermark. *)
Definition checker_at (w : Z) : EmailNotificationChecker :=
  mkChecker (mkConfig 30) w (Some (mkMCPServer true)) true true None
            (Some (mkGoroutine 30000000000 false)).

(** A checker fresh from its constructor. *)
Definition fresh_checker : EmailNotificationChecker :=
  NewEmailNotificationChecker (mkConfig 30) (mkMCPServer true).


(** The mailbox of the start-up scenario: messages 10, 11 and 12. *)
Definition inbox_12 : IMAPServer := mailbox [10; 11; 12] 13 true.

(** [s[n:]] for [n] within the string. *)
Fixpoint sdrop (n : nat) (s : string) : string :=
  match n, s with
  | O, _ => s
  | S n', String _ rest => sdrop n' rest
  | S _, EmptyString => EmptyString
  end.

(** White-space normalization in the words of the specification: leading
    and trailing white space is dropped and every run of white space
    between two words becomes one space.  The state says where the scan
    is: before the first word, inside a word, or past a word with white
    space seen since. *)
Inductive ws_state : Type :=
| AtStart
| InWord
| AfterSpace.

Fixpoint collapse_spaces (st : ws_state) (rs : list rune) : string :=
  match rs with
  | [] => ""
  | r :: rs' =>
      if IsSpace (rune_val r) then
        collapse_spaces (match st with AtStart => AtStart | _ => AfterSpace end) rs'
      else
        (match st with AfterSpace => " " | _ => "" end)
        +:+ rune_bytes r +:+ collapse_spaces InWord rs'
  end.

Definition normalized (body : string) : string :=
  collapse_spaces AtStart (runes body).

(** A string at whose start a rune begins: empty, or not starting with a
    continuation byte. *)
Definition rune_start (s : string) : Prop :=
  match s with
  | EmptyString => True
  | String b _ => is_cont (byte b) = false
  end.

(** Every rune of [runes s] has bytes, and a white-space rune starts with
    a byte that is not a continuation byte. *)
Definition rune_ok (r : rune) : Prop :=
  rune_bytes r <> ""
  /\ (IsSpace (rune_val r) = true -> forall s, rune_start (rune_bytes r +:+ s)).

Definition is_space_rune (r : rune) : Prop := IsSpace (rune_val r) = true.

(** * More of the gateway, the configuration and the tool handlers *)

(** The mailbox with the two commands the poller never issues: a fetch by
    a range of sequence numbers and a store of the [\Seen] flag. *)
Record MailStore : Type := mkMailStore {
  ms_server : IMAPServer;
  (** [FETCH lo:hi (ENVELOPE FLAGS UID)], with [lo:hi] the range the
      sequence set holds *)
  ms_fetch_seq_range : Z -> Z -> result (list Msg.t);
  (** [UID STORE uid +FLAGS.SILENT (\Seen)] *)
  ms_store_seen : Z -> result unit
}.

(** The loop of [GetInbox] over the fetched messages: with [unreadOnly]
    the messages flagged [\Seen] are skipped. *)
Fixpoint inbox_emails (unreadOnly : bool) (messages : list Msg.t) : list Email.t :=
  match messages with
  | [] => []
  | msg :: rest =>
      if unreadOnly && isSeen (Msg.Flags msg) then inbox_emails unreadOnly rest
      else email_of_msg msg :: inbox_emails unreadOnly rest
  end.

(** The loop [for i, j := 0, len(emails)-1; i < j; i, j = i+1, j-1] that
    swaps [emails[i]] and [emails[j]]; [fuel] bounds its iterations. *)
Fixpoint swap_loop {A : Type} (fuel : nat) (i j : Z) (l : list A) : list A :=
  match fuel with
  | O => l
  | S fuel' =>
      if i <? j then
        match l !! Z.to_nat i, l !! Z.to_nat j with
        | Some x, Some y =>
            swap_loop fuel' (i + 1) (j - 1)
                      (<[Z.to_nat j := x]> (<[Z.to_nat i := y]> l))
        | _, _ => l
        end
      else l
  end.

Definition reverse_in_place {A : Type} (l : list A) : list A :=
  swap_loop (length l) 0 (Z.of_nat (length l) - 1) l.

(** The first sequence number [GetInbox] asks for: [limit] is converted to
    a [uint32]. *)
Definition inbox_start (numMessages limit : Z) : Z :=
  if u32 limit <? u32 numMessages then u32 (u32 numMessages - u32 limit + 1) else 1.

(** [SeqSet.AddRange(start, stop)] on an empty set, by the range the set
    then holds: the two bounds change places when [stop] is below [start]
    and is not 0 (which stands for the last message), or when [start] is
    0. *)
Definition AddRange (start stop : Z) : Z * Z :=
  if ((stop <? start) && negb (stop =? 0)) || (start =? 0) then (stop, start)
  else (start, stop).

(** The range of sequence numbers [GetInbox] fetches. *)
Definition inbox_range (numMessages limit : Z) : Z * Z :=
  AddRange (inbox_start numMessages limit) (u32 numMessages).

(** [GetInbox]. *)
Definition GetInbox (ms : MailStore) (limit : Z) (unreadOnly : bool)
  : result (list Email.t) :=
  _ ← Connect (ms_server ms);
  mbox ← wrap_err "failed to select INBOX" (srv_select (ms_server ms));
  if u32 (NumMessages mbox) =? 0 then Ok [] else
  let '(lo, hi) := inbox_range (NumMessages mbox) limit in
  messages ← wrap_err "failed to fetch messages" (ms_fetch_seq_range ms lo hi);
  Ok (reverse_in_place (inbox_emails unreadOnly messages)).

(** [MarkAsRead]. *)
Definition MarkAsRead (ms : MailStore) (emailID : string) : result unit :=
  uid ← wrap_err "invalid email ID" (ParseUint32 emailID);
  _ ← Connect (ms_server ms);
  _ ← wrap_err "failed to select INBOX" (srv_select (ms_server ms));
  wrap_err "failed to mark email as read" (ms_store_seen ms uid).

(** [Config] in full (shared/config.go). *)
Module ConfigFile.
Record t : Type := mk {
  IMAP_Server : string;
  IMAP_Port : Z;
  IMAP_Username : string;
  IMAP_Password : string;
  IMAP_UseTLS : bool;
  SMTP_Server : string;
  SMTP_Port : Z;
  SMTP_Username : string;
  SMTP_Password : string;
  SMTP_RequireTLS : bool;
  MyEmail : string;
  Contacts : gmap string string;
  HTTP_Host : string;
  HTTP_Port : Z;
  Notifications_CheckIntervalSeconds : Z
}.
End ConfigFile.



(** [ResolveEmail]. *)
Definition ResolveEmail (c : ConfigFile.t) (nameOrEmail : string) : string :=
  match ConfigFile.Contacts c !! nameOrEmail with
  | Some email => email
  | None => nameOrEmail
  end.

(** An argument of a tool call, as far as [GetString] tells them apart:
    a JSON string or some other value. *)
Inductive Arg : Type :=
| ArgString (s : string)
| ArgOther.

(** [request.GetString(key, defaultValue)] of mcp-go. *)
Definition GetString (args : gmap string Arg) (key defaultValue : string) : string :=
  match args !! key with
  | Some (ArgString s) => s
  | _ => defaultValue
  end.

(** [mcp.NewToolResultText] and [mcp.NewToolResultError]. *)
Inductive ToolResult : Type :=
| ToolResultText (text : string)
| ToolResultError (text : string).

(** The handler of the tool [mark_email_read] (shared/handlers.go). *)
Definition mark_email_read (ms : MailStore) (args : gmap string Arg) : ToolResult :=
  let emailID := GetString args "email_id" "" in
  if bool_decide (emailID = "") then
    ToolResultError "Missing required parameter: email_id"
  else
    match MarkAsRead ms emailID with
    | Err e => ToolResultError ("Failed to mark email as read: " +:+ e)
    | Ok _ => ToolResultText ("Email " +:+ emailID +:+ " marked as read")
    end.

(** The handler of the tool [get_email_contents]; [marshal] stands for
    [json.MarshalIndent]. *)
Definition get_email_contents
  (parse : string -> string * string * list AttachmentInfo.t)
  (marshal : EmailDetail.t -> result string)
  (srv : IMAPServer) (args : gmap string Arg) : ToolResult :=
  let emailID := GetString args "email_id" "" in
  if bool_decide (emailID = "") then
    ToolResultError "Missing required parameter: email_id"
  else
    match GetEmailContents parse srv emailID with
    | Err e => ToolResultError ("Failed to get email: " +:+ e)
    | Ok email =>
        match marshal email with
        | Err e => ToolResultError ("Failed to serialize response: " +:+ e)
        | Ok text => ToolResultText text
        end
    end.

(** No byte of the string is an ASCII white-space character (tab, line
    feed, vertical tab, form feed, carriage return, space). *)
Fixpoint no_ascii_space (s : string) : bool :=
  match s with
  | EmptyString => true
  | String a rest =>
      negb (((9 <=? byte a) && (byte a <=? 13)) || (byte a =? 32))
      && no_ascii_space rest
  end.

(** No byte of the string is a tab, a line feed, a vertical tab, a form
    feed or a carriage return. *)
Fixpoint single_line (s : string) : bool :=
  match s with
  | EmptyString => true
  | String a rest =>
      negb ((9 <=? byte a) && (byte a <=? 13)) && single_line rest
  end.

(** The run of the goroutine after [Stop]: it finds its context done. *)
Definition stop_and_exit (c : EmailNotificationChecker) : EmailNotificationChecker :=
  (loop_done (Stop c).1).1.

(** A message with the given UID and flags, without envelope or body. *)
Definition bare_msg (uid : Z) (flags : list string) : Msg.t :=
  Msg.mk uid flags None [].

(** A mail store over [inbox_12] whose range fetch returns the messages
    10 (read), 11 and 12 and whose store succeeds. *)
Definition store_12 : MailStore :=
  mkMailStore inbox_12
    (fun _ _ => Ok [bare_msg 10 [FlagSeen]; bare_msg 11 []; bare_msg 12 []])
    (fun _ => Ok tt).

(** A mail store over [inbox_12] whose range fetch returns, of the
    messages 10, 11 and 12, those with the sequence numbers asked for. *)
Definition store_ranged : MailStore :=
  mkMailStore inbox_12
    (fun lo hi => Ok ((fun uid => bare_msg uid [])
                        <$> take (Z.to_nat (hi - lo + 1))
                                 (drop (Z.to_nat (lo - 1)) [10; 11; 12])))
    (fun _ => Ok tt).

(** 1 for [true], 0 for [false]. *)
Definition one_if (b : bool) : nat := if b then 1%nat else 0%nat.

(** The UIDs of fetched messages, as [uint32]s. *)
Definition uids (messages : list Msg.t) : list Z :=
  (fun msg => u32 (Msg.UID msg)) <$> messages.

(** A rune that is not white space has no ASCII white-space byte. *)
Definition rune_clean (r : rune) : Prop :=
  IsSpace (rune_val r) = false -> no_ascii_space (rune_bytes r) = true.


(** The arguments of a tool call that names message 13. *)
Definition args_13 : gmap string Arg := {[ "email_id" := ArgString "13" ]}.

(** The arguments of a tool call whose [email_id] is a number, not a
    string. *)
Definition args_number : gmap string Arg := {[ "email_id" := ArgOther ]}.

(** [json.MarshalIndent], by the subject alone. *)
Definition marshal_subject (d : EmailDetail.t) : result string :=
  Ok (EmailDetail.Subject d).
(** * The model on a few inputs *)

Example preview_test1 :
  GetEmailPreview ("  Hello," +:+ tab +:+ nbsp +:+ " world  " +:+ e_acute +:+ " ") 100
  = Some ("Hello, world " +:+ e_acute).
Proof. vm_compute. reflexivity. Qed.

Example preview_test2 : GetEmailPreview "abc def ghi" 5 = Some "abc d...".
Proof. vm_compute. reflexivity. Qed.

Example format_rfc3339_test :
  FormatRFC3339 (mkTime 2024 3 9 7 5 0 (-19800)) = "2024-03-09T07:05:00-05:30".
Proof. vm_compute. reflexivity. Qed.

Example normalized_test :
  normalized ("  Hello," +:+ tab +:+ nbsp +:+ " world  " +:+ e_acute +:+ " ")
  = "Hello, world " +:+ e_acute.
Proof. vm_compute. reflexivity. Qed.

Example Sscanf_test :
  Sscanf_uint32 "13" = Some 13 /\ Sscanf_uint32 " 42abc" = Some 42
  /\ Sscanf_uint32 "4294967296" = None /\ Sscanf_uint32 "1_000" = Some 1
  /\ Sscanf_uint32 "x" = None.
Proof. vm_compute. done. Qed.

Example ParseUint32_test :
  ParseUint32 "42" = Ok 42
  /\ ParseUint32 "" = Err "strconv.ParseUint: invalid syntax"
  /\ ParseUint32 "4x" = Err "strconv.ParseUint: invalid syntax"
  /\ ParseUint32 "4294967295" = Ok 4294967295
  /\ ParseUint32 "4294967296" = Err "strconv.ParseUint: value out of range"
  /\ ParseUint32 "4294967296x" = Err "strconv.ParseUint: value out of range".
Proof. vm_compute. done. Qed.

Example watermark_history_test :
  watermark_history raw_parse
    [mailbox [15; 14] 16 true; unreachable; mailbox [15; 14; 17] 18 true]
    (checker_at 13)
  = [15; 15; 17].
Proof. vm_compute. reflexivity. Qed.

Example startup_scenario :
  Start inbox_12 fresh_checker
  = (mkChecker (mkConfig 30) 12 (Some (mkMCPServer true)) true true None
               (Some (mkGoroutine 30000000000 false)),
     [EvStartCalled; EvLog (LogStarted 30000000000)]).
Proof. vm_compute. reflexivity. Qed.

(** * Decimal numerals *)

Lemma byte_chr (z : Z) : 0 <= z < 256 -> byte (chr z) = z.
Proof.
  intros Hz. unfold byte, chr.
  rewrite N_ascii_embedding by lia. lia.
Qed.

Lemma is_digit_chr (d : Z) : 0 <= d < 10 -> is_digit (chr (48 + d)) = true.
Proof.
  intros Hd. unfold is_digit. rewrite byte_chr by lia.
  apply andb_true_intro; split; apply Z.leb_le; lia.
Qed.

Lemma parse_dec_digit (d : Z) (rest : string) (a : Z) :
  0 <= d < 10 ->
  parse_dec (String (chr (48 + d)) rest) a = parse_dec rest (10 * a + d).
Proof.
  intros Hd. cbn [parse_dec]. rewrite is_digit_chr by done.
  rewrite byte_chr by lia. f_equal. lia.
Qed.

(** Reading back what [format_dec] wrote: the [k] digits of [n] shift the
    accumulator by [10 ^ k]. *)
Lemma parse_format_dec (fuel : nat) :
  forall n acc, 0 <= n < 10 ^ Z.of_nat fuel ->
    exists k, 0 <= k /\
      forall a, parse_dec (format_dec fuel n acc) a = parse_dec acc (a * 10 ^ k + n).
Proof.
  induction fuel as [|fuel IH]; intros n acc Hn.
  - exists 0. split; [lia|]. intros a. cbn. f_equal. cbn in Hn. lia.
  - cbn [format_dec].
    assert (Hmod : 0 <= n mod 10 < 10) by (apply Z.mod_pos_bound; lia).
    destruct (n <? 10) eqn:Hlt.
    + apply Z.ltb_lt in Hlt. exists 1. split; [lia|]. intros a.
      rewrite parse_dec_digit by done.
      rewrite Z.mod_small by lia. f_equal. lia.
    + apply Z.ltb_ge in Hlt.
      destruct (IH (n / 10) (String (chr (48 + n mod 10)) acc)) as (k & Hk & Heq).
      { split; [apply Z.div_pos; lia|].
        apply Z.div_lt_upper_bound; [lia|].
        rewrite Nat2Z.inj_succ, Z.pow_succ_r in Hn by lia. lia. }
      exists (k + 1). split; [lia|]. intros a.
      rewrite Heq, parse_dec_digit by done. f_equal.
      rewrite Z.pow_add_r by lia.
      pose proof (Z.div_mod n 10). lia.
Qed.

Lemma parse_FormatUint (n : Z) :
  0 <= n < 2 ^ 64 -> parse_dec (FormatUint n) 0 = Some n.
Proof.
  intros Hn. unfold FormatUint.
  destruct (parse_format_dec 20 n "") as (k & _ & Heq).
  { change (10 ^ Z.of_nat 20) with 100000000000000000000.
    change (2 ^ 64) with 18446744073709551616 in Hn. lia. }
  rewrite Heq. cbn. f_equal.
Qed.

Lemma FormatUint_inj (m n : Z) :
  0 <= m < 2 ^ 64 -> 0 <= n < 2 ^ 64 -> FormatUint m = FormatUint n -> m = n.
Proof.
  intros Hm Hn Heq.
  assert (H : Some m = Some n) by (rewrite <- !parse_FormatUint by done; by rewrite Heq).
  by injection H.
Qed.

Lemma u32_range (z : Z) : 0 <= u32 z < 2 ^ 32.
Proof. unfold u32. apply Z.mod_pos_bound. lia. Qed.

Lemma u32_range64 (z : Z) : 0 <= u32 z < 2 ^ 64.
Proof. pose proof (u32_range z). change (2 ^ 32) with 4294967296 in *. change (2 ^ 64) with 18446744073709551616. lia. Qed.

(** * [fmt.Sscanf] reads back what [strconv.FormatUint] wrote *)


Lemma format_dec_all_digits (fuel : nat) :
  forall n acc, 0 <= n -> all_digits acc = true ->
    all_digits (format_dec fuel n acc) = true.
Proof.
  induction fuel as [|fuel IH]; intros n acc Hn Hacc; [done|].
  cbn [format_dec].
  assert (Hmod : 0 <= n mod 10 < 10) by (apply Z.mod_pos_bound; lia).
  assert (Hacc' : all_digits (String (chr (48 + n mod 10)) acc) = true).
  { cbn [all_digits]. by rewrite is_digit_chr, Hacc. }
  destruct (n <? 10); [done|].
  apply IH; [apply Z.div_pos; lia | done].
Qed.

Lemma format_dec_nonempty (fuel : nat) (n : Z) (acc : string) :
  acc <> "" \/ fuel <> O -> format_dec fuel n acc <> "".
Proof.
  revert n acc. induction fuel as [|fuel IH]; intros n acc H.
  - cbn. by destruct H.
  - cbn [format_dec]. destruct (n <? 10); [done|]. apply IH. by left.
Qed.

Lemma FormatUint_all_digits (n : Z) : 0 <= n -> all_digits (FormatUint n) = true.
Proof. intros Hn. by apply format_dec_all_digits. Qed.

Lemma FormatUint_nonempty (n : Z) : FormatUint n <> "".
Proof. apply format_dec_nonempty. by right. Qed.

Lemma decode_digit (a : ascii) (rest : string) :
  is_digit a = true -> DecodeRuneInString (String a rest) = (byte a, 1%nat).
Proof.
  intros Ha. unfold is_digit in Ha. apply andb_true_iff in Ha as [_ Hhi].
  apply Z.leb_le in Hhi. cbn [DecodeRuneInString]. unfold first.
  destruct (byte a <? 128) eqn:E; [done|]. apply Z.ltb_ge in E. lia.
Qed.

Lemma runes_digits (s : string) :
  all_digits s = true ->
  skip_space (runes s) = Some (runes s) /\ scanNumber (runes s) = s.
Proof.
  unfold runes. induction s as [|a rest IH]; intros Hs; [done|].
  cbn [all_digits] in Hs. apply andb_true_iff in Hs as [Ha Hrest].
  cbn [runes_from]. rewrite decode_digit by done.
  destruct (IH Hrest) as [_ IHscan].
  replace (1 - 1)%nat with 0%nat by done.
  unfold is_digit in Ha. apply andb_true_iff in Ha as [Hlo Hhi].
  apply Z.leb_le in Hlo. apply Z.leb_le in Hhi.
  split.
  - cbn [skip_space rune_val].
    destruct (byte a =? 10) eqn:E1; [apply Z.eqb_eq in E1; lia|].
    assert (E2 : IsSpace (byte a) = false).
    { unfold IsSpace.
      repeat match goal with
             | |- context [Z.leb ?x ?y] => destruct (Z.leb_spec x y); try lia
             | |- context [Z.eqb ?x ?y] => destruct (Z.eqb_spec x y); try lia
             end; done. }
    by rewrite E2.
  - cbn [scanNumber]. unfold is_number_rune. cbn [rune_val rune_bytes].
    assert (E : (48 <=? byte a) && (byte a <=? 57) = true).
    { apply andb_true_intro; split; apply Z.leb_le; lia. }
    rewrite E. rewrite IHscan. by destruct rest.
Qed.

Lemma Sscanf_FormatUint (n : Z) :
  0 <= n < 2 ^ 32 -> Sscanf_uint32 (FormatUint n) = Some n.
Proof.
  intros Hn. unfold Sscanf_uint32.
  destruct (runes_digits (FormatUint n)) as [Hskip Hscan].
  { apply FormatUint_all_digits. lia. }
  rewrite Hskip. cbn [mbind option_bind]. rewrite Hscan.
  pose proof (FormatUint_nonempty n) as Hne.
  destruct (FormatUint n) as [|a s] eqn:E; [done|].
  rewrite <- E, parse_FormatUint.
  - cbn [mbind option_bind]. destruct (n <? 2 ^ 32) eqn:Hlt; [done|].
    apply Z.ltb_ge in Hlt. lia.
  - change (2 ^ 32) with 4294967296 in Hn.
    change (2 ^ 64) with 18446744073709551616. lia.
Qed.

Lemma parse_dec_ge (s : string) :
  forall n v, 0 <= n -> parse_dec s n = Some v -> n <= v.
Proof.
  induction s as [|c rest IH]; intros n v Hn H; cbn [parse_dec] in H.
  - injection H as <-. lia.
  - destruct (is_digit c) eqn:Hc; [|done].
    unfold is_digit in Hc. apply andb_true_iff in Hc as [Hlo Hhi].
    apply Z.leb_le in Hlo. apply Z.leb_le in Hhi.
    apply IH in H; lia.
Qed.

(** The loop of [ParseUint] accepts what the digit loop reads as a value
    below [2^32], and nothing else. *)
Lemma parse_uint_loop_Ok (s : string) :
  forall n v, 0 <= n < 2 ^ 32 ->
    parse_uint_loop s n = Ok v <-> parse_dec s n = Some v /\ v < 2 ^ 32.
Proof.
  change (2 ^ 32) with 4294967296.
  induction s as [|c rest IH]; intros n v Hn; cbn [parse_uint_loop parse_dec].
  - split; [intros [= <-]; split; [done|lia]|by intros [[= <-] _]].
  - destruct (is_digit c) eqn:Hc; [|split; [done|by intros [? _]]].
    cbn zeta. change (2 ^ 32 - 1) with 4294967295.
    assert (Hd : 0 <= byte c - 48 <= 9).
    { unfold is_digit in Hc. apply andb_true_iff in Hc as [Hlo Hhi].
      apply Z.leb_le in Hlo. apply Z.leb_le in Hhi. lia. }
    destruct (Z.ltb_spec 4294967295 (10 * n + (byte c - 48))) as [Hbig|Hsmall].
    + split; [done|]. intros [Hp Hv]. apply parse_dec_ge in Hp; lia.
    + apply IH. lia.
Qed.

Lemma ParseUint32_FormatUint (n : Z) :
  0 <= n < 2 ^ 32 -> ParseUint32 (FormatUint n) = Ok n.
Proof.
  intros Hn. unfold ParseUint32.
  pose proof (FormatUint_nonempty n) as Hne.
  destruct (FormatUint n) as [|a s] eqn:E; [done|].
  rewrite <- E. apply parse_uint_loop_Ok; [change (2 ^ 32) with 4294967296; lia|].
  split; [|lia]. apply parse_FormatUint.
  change (2 ^ 32) with 4294967296 in Hn.
  change (2 ^ 64) with 18446744073709551616. lia.
Qed.

(** * Lengths, and the preview *)

Lemma len_app (s1 s2 : string) : len (s1 +:+ s2) = len s1 + len s2.
Proof.
  unfold len. induction s1 as [|a s1 IH]; [done|].
  change (String a s1 +:+ s2) with (String a (s1 +:+ s2)).
  cbn [String.length]. lia.
Qed.

Lemma len_nonneg (s : string) : 0 <= len s.
Proof. unfold len. lia. Qed.

Lemma length_substring_0 (n : nat) :
  forall s, (n <= String.length s)%nat -> String.length (substring 0 n s) = n.
Proof.
  induction n as [|n IH]; intros [|a s] Hn; cbn in *; try done; try lia.
  rewrite IH; [done|lia].
Qed.

Lemma substring_0_all (s : string) : substring 0 (String.length s) s = s.
Proof. induction s as [|a s IH]; [done|]. cbn [String.length substring]. by rewrite IH. Qed.

Lemma substring_0_app (n : nat) :
  forall s, (n <= String.length s)%nat ->
    substring 0 n s +:+ substring n (String.length s - n) s = s.
Proof.
  induction n as [|n IH]; intros s Hn.
  - rewrite Nat.sub_0_r, substring_0_all. by destruct s.
  - destruct s as [|a s]; [cbn in Hn; lia|].
    cbn [String.length] in *. cbn [substring Nat.sub].
    change (String a ?x +:+ ?y) with (String a (x +:+ y)).
    rewrite IH; [done|lia].
Qed.

Lemma slice_to_Some (s : string) (n : Z) :
  0 <= n <= len s ->
  exists p, slice_to s n = Some p /\ len p = n /\ exists q, s = p +:+ q.
Proof.
  intros Hn. unfold slice_to.
  assert (Hle : (Z.to_nat n <= String.length s)%nat) by (unfold len in Hn; lia).
  replace ((0 <=? n) && (n <=? len s)) with true.
  2:{ symmetry. apply andb_true_intro; split; apply Z.leb_le; lia. }
  eexists. split; [done|]. split.
  - unfold len. rewrite length_substring_0 by done. lia.
  - eexists. symmetry. by apply substring_0_app.
Qed.

Lemma GetEmailPreview_eq (body : string) (maxLen : Z) :
  0 <= maxLen ->
  GetEmailPreview body maxLen
  = Some (if len (normalize_space body) <=? maxLen then normalize_space body
          else substring 0 (Z.to_nat maxLen) (normalize_space body) +:+ "...").
Proof.
  intros Hmax. unfold GetEmailPreview. fold (normalize_space body).
  destruct (len (normalize_space body) <=? maxLen) eqn:E; [done|].
  apply Z.leb_gt in E. unfold slice_to.
  replace ((0 <=? maxLen) && (maxLen <=? len (normalize_space body))) with true; [done|].
  symmetry. apply andb_true_intro; split; apply Z.leb_le; lia.
Qed.

Lemma GetEmailPreview_is_Some (body : string) (maxLen : Z) :
  0 <= maxLen -> is_Some (GetEmailPreview body maxLen).
Proof. intros H. rewrite GetEmailPreview_eq by done. by eexists. Qed.


(** * The poll cycle *)

Section CheckerProperties.

Variable parse : string -> string * string * list AttachmentInfo.t.

Lemma notify_loop_lastUID_mono (srv : IMAPServer) (newEmails : list Email.t) :
  forall c, lastUID c <= lastUID (notify_loop parse srv newEmails c).1.
Proof.
  induction newEmails as [|email rest IH]; intros c; [done|].
  cbn [notify_loop].
  set (uid := default 0 (Sscanf_uint32 (Email.ID email))).
  set (c1 := if lastUID c <? uid then set_lastUID uid c else c).
  assert (H1 : lastUID c <= lastUID c1).
  { subst c1. destruct (lastUID c <? uid) eqn:E; [|done].
    apply Z.ltb_lt in E. cbn. lia. }
  destruct (match GetEmailContents parse srv (Email.ID email) with
            | Ok detail => GetEmailPreview (EmailDetail.Body detail) 100
            | Err _ => Some "" end) as [p|]; [|done].
  destruct (broadcaster c1); [|done].
  specialize (IH c1). destruct (notify_loop parse srv rest c1) as [c' evs].
  cbn in *. lia.
Qed.

Lemma checkForNewEmails_lastUID_mono (srv : IMAPServer) (c : EmailNotificationChecker) :
  lastUID c <= lastUID (checkForNewEmails parse srv c).1.
Proof.
  unfold checkForNewEmails.
  destruct (GetEmailsSinceUID srv (lastUID c)) as [newEmails|e]; [|done].
  pose proof (notify_loop_lastUID_mono srv newEmails c) as H.
  by destruct (notify_loop parse srv newEmails c).
Qed.

Lemma run_cycles_app (srvs1 srvs2 : list IMAPServer) :
  forall c, run_cycles parse (srvs1 ++ srvs2) c
            = run_cycles parse srvs2 (run_cycles parse srvs1 c).
Proof. induction srvs1 as [|srv srvs1 IH]; intros c; [done|]. cbn. apply IH. Qed.

Lemma run_cycles_lastUID_mono (srvs : list IMAPServer) :
  forall c, lastUID c <= lastUID (run_cycles parse srvs c).
Proof.
  induction srvs as [|srv srvs IH]; intros c; [done|].
  cbn [run_cycles].
  pose proof (checkForNewEmails_lastUID_mono srv c).
  specialize (IH (checkForNewEmails parse srv c).1). lia.
Qed.

(** The watermark inside a cycle: the run of the loop over a part of the
    emails never ends above the run over more of them. *)
Lemma notify_loop_app_mono (srv : IMAPServer) (es1 es2 : list Email.t) :
  forall c, lastUID (notify_loop parse srv es1 c).1
            <= lastUID (notify_loop parse srv (es1 ++ es2) c).1.
Proof.
  induction es1 as [|email es1 IH]; intros c.
  - cbn [app notify_loop fst]. apply notify_loop_lastUID_mono.
  - cbn [app notify_loop].
    set (uid := default 0 (Sscanf_uint32 (Email.ID email))).
    set (c1 := if lastUID c <? uid then set_lastUID uid c else c).
    destruct (match GetEmailContents parse srv (Email.ID email) with
              | Ok detail => GetEmailPreview (EmailDetail.Body detail) 100
              | Err _ => Some ""
              end) as [p|]; [|done].
    destruct (broadcaster c1); [|done].
    specialize (IH c1).
    destruct (notify_loop parse srv es1 c1) as [c2 evs2].
    by destruct (notify_loop parse srv (es1 ++ es2) c1) as [c3 evs3].
Qed.

Lemma notify_loop_take_mono (srv : IMAPServer) (es : list Email.t)
    (c : EmailNotificationChecker) (k j : nat) :
  (k <= j)%nat ->
  lastUID (notify_loop parse srv (take k es) c).1
  <= lastUID (notify_loop parse srv (take j es) c).1.
Proof.
  intros Hkj.
  rewrite <- (take_drop k (take j es)), take_take, Nat.min_l by done.
  apply notify_loop_app_mono.
Qed.

Lemma StronglySorted_fmap_seq (f : nat -> Z) (n : nat) :
  (forall k j, (k <= j)%nat -> f k <= f j) ->
  forall a, StronglySorted Z.le (f <$> seq a n).
Proof.
  intros Hf. induction n as [|n IH]; intros a; cbn [seq fmap list_fmap].
  - constructor.
  - apply StronglySorted_cons. split; [|apply IH].
    apply Forall_forall. intros x Hx.
    apply list_elem_of_fmap in Hx as (j & -> & Hj).
    apply elem_of_seq in Hj. apply Hf. lia.
Qed.

Lemma loop_watermarks_sorted (srv : IMAPServer) (es : list Email.t)
    (c : EmailNotificationChecker) :
  StronglySorted Z.le (loop_watermarks parse srv es c).
Proof.
  unfold loop_watermarks. apply StronglySorted_fmap_seq.
  intros k j Hkj. by apply notify_loop_take_mono.
Qed.

Lemma loop_watermarks_bounds (srv : IMAPServer) (es : list Email.t)
    (c : EmailNotificationChecker) (v : Z) :
  v ∈ loop_watermarks parse srv es c ->
  lastUID c <= v <= lastUID (notify_loop parse srv es c).1.
Proof.
  unfold loop_watermarks. intros Hv.
  apply list_elem_of_fmap in Hv as (k & -> & _). split.
  - apply (notify_loop_take_mono srv es c 0 k). lia.
  - rewrite <- (take_ge es (max k (length es))) at 2 by lia.
    apply notify_loop_take_mono. lia.
Qed.

Lemma loop_watermarks_last (srv : IMAPServer) (es : list Email.t)
    (c : EmailNotificationChecker) :
  last (lastUID c :: loop_watermarks parse srv es c)
  = Some (lastUID (notify_loop parse srv es c).1).
Proof.
  unfold loop_watermarks. destruct (length es) as [|n] eqn:Hlen.
  - apply length_zero_iff_nil in Hlen as ->. done.
  - rewrite seq_S, fmap_app. cbn [fmap list_fmap].
    rewrite app_comm_cons, last_snoc. by rewrite take_ge by lia.
Qed.

Lemma cycle_watermarks_sorted (srv : IMAPServer) (c : EmailNotificationChecker) :
  StronglySorted Z.le (cycle_watermarks parse srv c).
Proof.
  unfold cycle_watermarks.
  destruct (GetEmailsSinceUID srv (lastUID c)); [apply loop_watermarks_sorted|constructor].
Qed.

Lemma cycle_watermarks_bounds (srv : IMAPServer) (c : EmailNotificationChecker)
    (v : Z) :
  v ∈ cycle_watermarks parse srv c ->
  lastUID c <= v <= lastUID (checkForNewEmails parse srv c).1.
Proof.
  unfold cycle_watermarks, checkForNewEmails.
  destruct (GetEmailsSinceUID srv (lastUID c)) as [es|e]; [|by intros ?%elem_of_nil].
  intros Hv%loop_watermarks_bounds.
  by destruct (notify_loop parse srv es c).
Qed.

Lemma cycle_watermarks_last (srv : IMAPServer) (c : EmailNotificationChecker) :
  last (lastUID c :: cycle_watermarks parse srv c)
  = Some (lastUID (checkForNewEmails parse srv c).1).
Proof.
  unfold cycle_watermarks, checkForNewEmails.
  destruct (GetEmailsSinceUID srv (lastUID c)) as [es|e]; [|done].
  rewrite loop_watermarks_last. by destruct (notify_loop parse srv es c).
Qed.

Lemma watermark_history_sorted (srvs : list IMAPServer) :
  forall c, StronglySorted Z.le (lastUID c :: watermark_history parse srvs c).
Proof.
  induction srvs as [|srv srvs IH]; intros c; cbn [watermark_history].
  - apply StronglySorted_cons. split; constructor.
  - specialize (IH (checkForNewEmails parse srv c).1).
    apply StronglySorted_cons in IH as [Hall Hsorted].
    rewrite Forall_forall in Hall.
    pose proof (checkForNewEmails_lastUID_mono srv c) as Hcycle.
    apply StronglySorted_cons. split.
    + apply Forall_app. split; apply Forall_forall; intros v Hv.
      * by apply cycle_watermarks_bounds in Hv as [? _].
      * specialize (Hall v Hv). lia.
    + apply StronglySorted_app. split; [|split; [apply cycle_watermarks_sorted|done]].
      intros v w Hv Hw. apply cycle_watermarks_bounds in Hv as [_ Hv].
      specialize (Hall w Hw). lia.
Qed.

Lemma watermark_history_last (srvs : list IMAPServer) :
  forall c, last (lastUID c :: watermark_history parse srvs c)
            = Some (lastUID (run_cycles parse srvs c)).
Proof.
  induction srvs as [|srv srvs IH]; intros c; cbn [watermark_history run_cycles]; [done|].
  rewrite app_comm_cons, last_app, <- (IH (checkForNewEmails parse srv c).1).
  rewrite (last_cons (lastUID (checkForNewEmails parse srv c).1)).
  destruct (last (watermark_history parse srvs (checkForNewEmails parse srv c).1));
    [done|].
  apply cycle_watermarks_last.
Qed.

Lemma watermark_history_app (srvs1 srvs2 : list IMAPServer) :
  forall c, watermark_history parse (srvs1 ++ srvs2) c
            = (watermark_history parse srvs1 c
               ++ watermark_history parse srvs2 (run_cycles parse srvs1 c))%list.
Proof.
  induction srvs1 as [|srv srvs1 IH]; intros c; [done|].
  cbn [app watermark_history run_cycles]. by rewrite IH, app_assoc.
Qed.

(** C3. The watermark never goes down over poll cycles.  Whatever the
    mailbox answers at each tick, the values [lastUID] holds in turn,
    from the first cycle on and inside each cycle after every email of
    its loop, are in non-decreasing order: once it holds [v], every value
    it holds later, in the same cycle or in a further one, is at least
    [v].  The last of these values is the one the cycles end with.  In
    particular the value after some cycles is at most the value after any
    further cycles, and a single run of the check, called directly or
    from a tick of the goroutine, never lowers it. *)
Theorem C3_watermark_monotone (srvs more : list IMAPServer) (tick : IMAPServer)
    (c : EmailNotificationChecker) :
  lastUID c <= lastUID (run_cycles parse srvs c)
  /\ lastUID (run_cycles parse srvs c)
     <= lastUID (run_cycles parse (srvs ++ more) c)
  /\ lastUID c <= lastUID (checkForNewEmails parse tick c).1
  /\ lastUID c <= lastUID (loop_tick parse tick c).1
  /\ StronglySorted Z.le (lastUID c :: watermark_history parse srvs c)
  /\ last (lastUID c :: watermark_history parse srvs c)
     = Some (lastUID (run_cycles parse srvs c))
  /\ (forall v w, v ∈ lastUID c :: watermark_history parse srvs c ->
        w ∈ watermark_history parse more (run_cycles parse srvs c) -> v <= w).
Proof.
  split; [apply run_cycles_lastUID_mono|]. split.
  { rewrite run_cycles_app. apply run_cycles_lastUID_mono. }
  split; [apply checkForNewEmails_lastUID_mono|]. split.
  { unfold loop_tick. destruct (loop c); [apply checkForNewEmails_lastUID_mono|done]. }
  split; [apply watermark_history_sorted|].
  split; [apply watermark_history_last|].
  intros v w Hv Hw.
  pose proof (watermark_history_sorted (srvs ++ more) c) as Hs.
  rewrite watermark_history_app, app_comm_cons in Hs.
  by apply (StronglySorted_app_1_elem_of _ _ _ _ _ Hs).
Qed.

(** C7. When the fetch of new messages fails as a whole, the cycle logs the
    error and ends: the checker is left exactly as it was (so [lastUID] is
    unchanged), nothing is broadcast, and the next cycle asks the gateway
    for the messages above the same watermark. *)
Theorem C7_fetch_failure_keeps_watermark (srv next : IMAPServer)
    (c : EmailNotificationChecker) (e : string) :
  GetEmailsSinceUID srv (lastUID c) = Err e ->
  let '(c', evs) := checkForNewEmails parse srv c in
  c' = c
  /\ lastUID c' = lastUID c
  /\ evs = [EvLog (LogChecking (lastUID c)); EvLog (LogCheckError e)]
  /\ broadcasts evs = []
  /\ GetEmailsSinceUID next (lastUID c') = GetEmailsSinceUID next (lastUID c).
Proof.
  intros H. unfold checkForNewEmails. rewrite H. done.
Qed.

(** ** What one cycle broadcasts *)

Lemma broadcasts_cons_log (l : LogEntry) (evs : list Event) :
  broadcasts (EvLog l :: evs) = broadcasts evs.
Proof. done. Qed.

Lemma elem_of_broadcasts (evs : list Event) (m : string) (p : gmap string any) :
  EvBroadcast m p ∈ evs <-> (m, p) ∈ broadcasts evs.
Proof.
  unfold broadcasts. rewrite list_elem_of_omap. split.
  - intros H. by exists (EvBroadcast m p).
  - intros (ev & Hin & Hev). destruct ev; try done. by simplify_eq.
Qed.

Lemma emails_since_filter (w : Z) (messages : list Msg.t) :
  emails_since w messages
  = email_of_msg <$> filter (fun msg => w < u32 (Msg.UID msg)) messages.
Proof.
  induction messages as [|msg rest IH]; [done|].
  cbn [emails_since]. destruct (u32 (Msg.UID msg) <=? w) eqn:E.
  - apply Z.leb_le in E. rewrite filter_cons_False by lia. done.
  - apply Z.leb_gt in E. rewrite filter_cons_True by lia.
    rewrite fmap_cons. by f_equal.
Qed.

Lemma notify_loop_broadcaster (srv : IMAPServer) (newEmails : list Email.t) :
  forall c, broadcaster (notify_loop parse srv newEmails c).1 = broadcaster c.
Proof.
  induction newEmails as [|email rest IH]; intros c; [done|].
  cbn [notify_loop].
  set (uid := default 0 (Sscanf_uint32 (Email.ID email))).
  set (c1 := if lastUID c <? uid then set_lastUID uid c else c).
  assert (H1 : broadcaster c1 = broadcaster c).
  { subst c1. by destruct (lastUID c <? uid). }
  destruct (match GetEmailContents parse srv (Email.ID email) with
            | Ok detail => GetEmailPreview (EmailDetail.Body detail) 100
            | Err _ => Some "" end) as [p|]; [|done].
  destruct (broadcaster c1) eqn:Hb; [|cbn; congruence].
  specialize (IH c1). destruct (notify_loop parse srv rest c1) as [c' evs].
  cbn in *. congruence.
Qed.

Lemma preview_step (srv : IMAPServer) (email : Email.t) :
  match GetEmailContents parse srv (Email.ID email) with
  | Ok detail => GetEmailPreview (EmailDetail.Body detail) 100
  | Err _ => Some ""
  end = Some (preview_of parse srv email).
Proof.
  unfold preview_of. destruct (GetEmailContents parse srv (Email.ID email)) as [d|e]; [|done].
  destruct (GetEmailPreview_is_Some (EmailDetail.Body d) 100) as [p Hp]; [lia|].
  by rewrite Hp.
Qed.

(** With a broadcaster, the loop hands over one notification per email, in
    the order of the list. *)
Lemma notify_loop_broadcasts (srv : IMAPServer) (newEmails : list Email.t) :
  forall c, is_Some (broadcaster c) ->
    broadcasts (notify_loop parse srv newEmails c).2
    = (fun email => ("new_email", new_email_params email (preview_of parse srv email)))
        <$> newEmails.
Proof.
  induction newEmails as [|email rest IH]; intros c Hb; [done|].
  cbn [notify_loop]. rewrite preview_step.
  set (uid := default 0 (Sscanf_uint32 (Email.ID email))).
  set (c1 := if lastUID c <? uid then set_lastUID uid c else c).
  assert (H1 : broadcaster c1 = broadcaster c).
  { subst c1. by destruct (lastUID c <? uid). }
  destruct Hb as [b Hb]. rewrite H1, Hb.
  specialize (IH c1). rewrite H1, Hb in IH. specialize (IH (ltac:(by eexists))).
  destruct (notify_loop parse srv rest c1) as [c' evs].
  cbn in *. by rewrite IH.
Qed.

(** With a broadcaster, the loop leaves the watermark at the largest of
    its old value and the UIDs of the emails: the ID the gateway wrote
    with [FormatUint] is read back by [Sscanf]. *)
Lemma notify_loop_watermark (srv : IMAPServer) (messages : list Msg.t) :
  forall c, is_Some (broadcaster c) ->
    lastUID (notify_loop parse srv (email_of_msg <$> messages) c).1
    = foldl Z.max (lastUID c) ((fun msg => u32 (Msg.UID msg)) <$> messages).
Proof.
  induction messages as [|msg rest IH]; intros c Hb; [done|].
  rewrite !fmap_cons. cbn [notify_loop foldl]. rewrite preview_step.
  cbn [email_of_msg Email.ID]. rewrite Sscanf_FormatUint by apply u32_range.
  cbn [default from_option]. unfold id.
  set (c1 := if lastUID c <? u32 (Msg.UID msg)
             then set_lastUID (u32 (Msg.UID msg)) c else c).
  assert (H1 : broadcaster c1 = broadcaster c).
  { subst c1. by destruct (lastUID c <? u32 (Msg.UID msg)). }
  assert (H2 : lastUID c1 = Z.max (lastUID c) (u32 (Msg.UID msg))).
  { subst c1. destruct (lastUID c <? u32 (Msg.UID msg)) eqn:E;
      [apply Z.ltb_lt in E|apply Z.ltb_ge in E]; cbn [lastUID set_lastUID]; lia. }
  destruct Hb as [b Hb]. rewrite H1, Hb.
  specialize (IH c1). rewrite H1, Hb, H2 in IH. specialize (IH (ltac:(by eexists))).
  fold (email_of_msg <$> rest) in *.
  by destruct (notify_loop parse srv (email_of_msg <$> rest) c1).
Qed.

(** Without one, it hands over nothing. *)
Lemma notify_loop_no_broadcaster (srv : IMAPServer) (newEmails : list Email.t)
    (c : EmailNotificationChecker) :
  broadcaster c = None -> broadcasts (notify_loop parse srv newEmails c).2 = [].
Proof.
  intros Hb. destruct newEmails as [|email rest]; [done|].
  cbn [notify_loop]. rewrite preview_step.
  set (uid := default 0 (Sscanf_uint32 (Email.ID email))).
  set (c1 := if lastUID c <? uid then set_lastUID uid c else c).
  assert (H1 : broadcaster c1 = broadcaster c).
  { subst c1. by destruct (lastUID c <? uid). }
  by rewrite H1, Hb.
Qed.

(** The cycle as a whole: every notification comes from an email the
    gateway returned. *)
Lemma checkForNewEmails_broadcasts (srv : IMAPServer) (c : EmailNotificationChecker)
    (m : string) (p : gmap string any) :
  EvBroadcast m p ∈ (checkForNewEmails parse srv c).2 ->
  exists newEmails email,
    GetEmailsSinceUID srv (lastUID c) = Ok newEmails
    /\ email ∈ newEmails
    /\ m = "new_email"
    /\ p = new_email_params email (preview_of parse srv email).
Proof.
  rewrite elem_of_broadcasts. unfold checkForNewEmails.
  destruct (GetEmailsSinceUID srv (lastUID c)) as [newEmails|e]; [|by intros ?%elem_of_nil].
  destruct (broadcaster c) as [b|] eqn:Hb.
  - pose proof (notify_loop_broadcasts srv newEmails c (ltac:(by eexists))) as H.
    destruct (notify_loop parse srv newEmails c) as [c' evs]. cbn in *.
    rewrite H. intros (email & Heq & Hin)%list_elem_of_fmap.
    exists newEmails, email. by simplify_eq.
  - pose proof (notify_loop_no_broadcaster srv newEmails c Hb) as H.
    destruct (notify_loop parse srv newEmails c) as [c' evs]. cbn in *.
    rewrite H. by intros ?%elem_of_nil.
Qed.

(** What [GetEmailsSinceUID] can return: nothing, or the fetched messages
    above [sinceUID], in the order of the response. *)
Lemma GetEmailsSinceUID_Ok (srv : IMAPServer) (w : Z) (newEmails : list Email.t) :
  GetEmailsSinceUID srv w = Ok newEmails ->
  newEmails = []
  \/ exists messages,
       srv_fetch_uid_range srv (u32 (w + 1)) 0 = Ok messages
       /\ newEmails = email_of_msg <$> filter (fun msg => w < u32 (Msg.UID msg)) messages.
Proof.
  unfold GetEmailsSinceUID.
  destruct (Connect srv) as [[]|e]; [|done]. cbn [mbind result_bind].
  destruct (srv_select srv) as [mbox|e]; [|done]. cbn [wrap_err mbind result_bind].
  destruct (u32 (UIDNext mbox) <=? u32 (w + 1)); [intros; simplify_eq; by left|].
  destruct (srv_fetch_uid_range srv (u32 (w + 1)) 0) as [messages|e]; [|done].
  cbn [wrap_err mbind result_bind]. intros; simplify_eq. right.
  exists messages. by rewrite emails_since_filter.
Qed.

Lemma cycle_broadcasts (srv : IMAPServer) (c : EmailNotificationChecker) :
  broadcasts (checkForNewEmails parse srv c).2
  = match broadcaster c, GetEmailsSinceUID srv (lastUID c) with
    | Some _, Ok newEmails =>
        (fun email => ("new_email", new_email_params email (preview_of parse srv email)))
          <$> newEmails
    | _, _ => []
    end.
Proof.
  unfold checkForNewEmails.
  destruct (GetEmailsSinceUID srv (lastUID c)) as [newEmails|e]; [|by destruct (broadcaster c)].
  destruct (broadcaster c) as [b|] eqn:Hb.
  - pose proof (notify_loop_broadcasts srv newEmails c (ltac:(by eexists))) as H.
    by destruct (notify_loop parse srv newEmails c).
  - pose proof (notify_loop_no_broadcaster srv newEmails c Hb) as H.
    by destruct (notify_loop parse srv newEmails c).
Qed.

Lemma params_dom (email : Email.t) (preview : string) :
  dom (new_email_params email preview) = notification_keys.
Proof.
  unfold new_email_params, notification_keys.
  rewrite !dom_insert_L, dom_empty_L. set_solver.
Qed.

Lemma params_fields (email : Email.t) (preview : string) :
  let p := new_email_params email preview in
  string_field "email_id" p = Some (Email.ID email)
  /\ string_field "from" p = Some (Email.From email)
  /\ string_field "subject" p = Some (Email.Subject email)
  /\ string_field "received_at" p = Some (FormatRFC3339 (Email.Date email))
  /\ string_field "preview" p = Some preview
  /\ string_field "title" p
     = Some ("New Email Received. From: " +:+ Email.From email
             +:+ ", Subject: " +:+ Email.Subject email).
Proof.
  unfold string_field, new_email_params. cbn zeta.
  repeat split; by simplify_map_eq.
Qed.

Lemma cycle_notified_ids (srv : IMAPServer) (c : EmailNotificationChecker) :
  notified_ids (checkForNewEmails parse srv c).2
  = match broadcaster c, GetEmailsSinceUID srv (lastUID c) with
    | Some _, Ok newEmails => Email.ID <$> newEmails
    | _, _ => []
    end.
Proof.
  unfold notified_ids. rewrite cycle_broadcasts.
  destruct (broadcaster c); [|done].
  destruct (GetEmailsSinceUID srv (lastUID c)) as [newEmails|e]; [|done].
  induction newEmails as [|email rest IH]; [done|].
  rewrite !fmap_cons. cbn [omap list_omap snd].
  destruct (params_fields email (preview_of parse srv email)) as [-> _].
  by rewrite IH.
Qed.

Lemma omap_parse_ids (messages : list Msg.t) :
  omap (fun id => parse_dec id 0) (Email.ID <$> (email_of_msg <$> messages))
  = (fun msg => u32 (Msg.UID msg)) <$> messages.
Proof.
  induction messages as [|msg rest IH]; [done|].
  rewrite !fmap_cons. cbn [omap list_omap email_of_msg Email.ID].
  rewrite parse_FormatUint by apply u32_range64. by rewrite IH.
Qed.

(** The UIDs notified in a cycle, in order: those of the response that lie
    above the watermark, as the response lists them. *)
Lemma cycle_notified_uids (srv : IMAPServer) (c : EmailNotificationChecker) :
  notified_uids (checkForNewEmails parse srv c).2 = []
  \/ exists messages,
       srv_fetch_uid_range srv (u32 (lastUID c + 1)) 0 = Ok messages
       /\ notified_uids (checkForNewEmails parse srv c).2
          = (fun msg => u32 (Msg.UID msg))
              <$> filter (fun msg => lastUID c < u32 (Msg.UID msg)) messages.
Proof.
  unfold notified_uids. rewrite cycle_notified_ids.
  destruct (broadcaster c); [|by left].
  destruct (GetEmailsSinceUID srv (lastUID c)) as [newEmails|e] eqn:E; [|by left].
  apply GetEmailsSinceUID_Ok in E as [->|(messages & Hf & ->)]; [by left|].
  right. exists messages. split; [done|]. apply omap_parse_ids.
Qed.

Lemma StronglySorted_sublist {A : Type} (R : relation A) (k l : list A) :
  k `sublist_of` l -> StronglySorted R l -> StronglySorted R k.
Proof.
  induction 1 as [|x k l Hsub IH|x k l Hsub IH]; intros Hs.
  - constructor.
  - apply StronglySorted_inv in Hs as [Hs Hall]. constructor; [by apply IH|].
    rewrite Forall_forall in Hall |- *. intros y Hy. apply Hall.
    by eapply elem_of_sublist.
  - apply StronglySorted_inv in Hs as [Hs _]. by apply IH.
Qed.

(** C1 (amended). Every notification a poll cycle hands to the broadcaster
    has method "new_email", and its params object has exactly six fields:
    title, email_id, from, subject, received_at and preview.  They are
    built from one of the emails the gateway returned: its ID, sender and
    subject, its date in RFC 3339 form, a preview, and a title made of
    sender and subject.  With a broadcaster, every returned email gets
    such a notification. *)
Theorem C1_notification_payload (srv : IMAPServer) (c : EmailNotificationChecker) :
  (forall method params,
     EvBroadcast method params ∈ (checkForNewEmails parse srv c).2 ->
     method = "new_email"
     /\ dom params = notification_keys
     /\ exists newEmails email,
          GetEmailsSinceUID srv (lastUID c) = Ok newEmails
          /\ email ∈ newEmails
          /\ string_field "email_id" params = Some (Email.ID email)
          /\ string_field "from" params = Some (Email.From email)
          /\ string_field "subject" params = Some (Email.Subject email)
          /\ string_field "received_at" params
             = Some (FormatRFC3339 (Email.Date email))
          /\ string_field "preview" params = Some (preview_of parse srv email)
          /\ string_field "title" params
             = Some ("New Email Received. From: " +:+ Email.From email
                     +:+ ", Subject: " +:+ Email.Subject email))
  /\ (forall newEmails email,
        is_Some (broadcaster c) ->
        GetEmailsSinceUID srv (lastUID c) = Ok newEmails ->
        email ∈ newEmails ->
        exists params,
          EvBroadcast "new_email" params ∈ (checkForNewEmails parse srv c).2
          /\ string_field "email_id" params = Some (Email.ID email)).
Proof.
  split.
  - intros method params (newEmails & email & Hget & Hin & -> & ->)%checkForNewEmails_broadcasts.
    split; [done|]. split; [apply params_dom|].
    exists newEmails, email.
    pose proof (params_fields email (preview_of parse srv email)) as H.
    cbn zeta in H. destruct H as (? & ? & ? & ? & ? & ?). by repeat split.
  - intros newEmails email [b Hb] Hget Hin.
    exists (new_email_params email (preview_of parse srv email)). split.
    + apply elem_of_broadcasts. rewrite cycle_broadcasts, Hb, Hget.
      apply list_elem_of_fmap. by exists email.
    + apply params_fields.
Qed.

(** C4. A poll cycle that starts with watermark [w] notifies only for
    messages above [w]: each notification carries the UID of a fetched
    message whose UID is greater than [w], and no fetched message with a
    UID of at most [w] has its ID in a notification. *)
Theorem C4_only_above_watermark (srv : IMAPServer) (c : EmailNotificationChecker) :
  (forall method params,
     EvBroadcast method params ∈ (checkForNewEmails parse srv c).2 ->
     exists messages msg,
       srv_fetch_uid_range srv (u32 (lastUID c + 1)) 0 = Ok messages
       /\ msg ∈ messages
       /\ lastUID c < u32 (Msg.UID msg)
       /\ string_field "email_id" params = Some (FormatUint (u32 (Msg.UID msg))))
  /\ (forall msg : Msg.t,
        u32 (Msg.UID msg) <= lastUID c ->
        FormatUint (u32 (Msg.UID msg))
          ∉ notified_ids (checkForNewEmails parse srv c).2).
Proof.
  assert (Hfirst : forall method params,
     EvBroadcast method params ∈ (checkForNewEmails parse srv c).2 ->
     exists messages msg,
       srv_fetch_uid_range srv (u32 (lastUID c + 1)) 0 = Ok messages
       /\ msg ∈ messages
       /\ lastUID c < u32 (Msg.UID msg)
       /\ string_field "email_id" params = Some (FormatUint (u32 (Msg.UID msg)))).
  { intros method params (newEmails & email & Hget & Hin & -> & ->)%checkForNewEmails_broadcasts.
    apply GetEmailsSinceUID_Ok in Hget as [->|(messages & Hf & ->)];
      [by apply elem_of_nil in Hin|].
    apply list_elem_of_fmap in Hin as (msg & -> & Hmsg).
    apply list_elem_of_filter in Hmsg as [Hgt Hmsg].
    exists messages, msg. repeat split; first [done | apply params_fields]. }
  split; [done|].
  intros msg Hle Hin. unfold notified_ids in Hin.
  apply list_elem_of_omap in Hin as ([m p] & Hmp & Hid).
  apply elem_of_broadcasts, Hfirst in Hmp as (messages & msg' & _ & _ & Hgt & Hid').
  cbn [snd] in Hid. rewrite Hid' in Hid. injection Hid as Hid.
  apply FormatUint_inj in Hid; [lia|apply u32_range64..].
Qed.

(** C6 (amended). A poll cycle notifies in the order in which the fetch
    response lists the messages; it does not sort.  The UIDs notified are
    a subsequence of those of the response, so they are in non-decreasing
    order whenever the response is; and when the gateway call goes through
    for a checker with a broadcaster, they are exactly the UIDs of the
    response above the watermark, in the order of the response. *)
Theorem C6_order_of_response (srv : IMAPServer) (c : EmailNotificationChecker) :
  let evs := (checkForNewEmails parse srv c).2 in
  let fetched := srv_fetch_uid_range srv (u32 (lastUID c + 1)) 0 in
  (forall messages, fetched = Ok messages ->
     notified_uids evs `sublist_of` ((fun msg => u32 (Msg.UID msg)) <$> messages))
  /\ (forall messages, fetched = Ok messages ->
        StronglySorted Z.le ((fun msg => u32 (Msg.UID msg)) <$> messages) ->
        StronglySorted Z.le (notified_uids evs))
  /\ (forall messages mbox,
        is_Some (broadcaster c) ->
        Connect srv = Ok tt ->
        srv_select srv = Ok mbox ->
        u32 (lastUID c + 1) < u32 (UIDNext mbox) ->
        fetched = Ok messages ->
        notified_uids evs
        = (fun msg => u32 (Msg.UID msg))
            <$> filter (fun msg => lastUID c < u32 (Msg.UID msg)) messages).
Proof.
  cbn zeta.
  assert (Hsub : forall messages,
    srv_fetch_uid_range srv (u32 (lastUID c + 1)) 0 = Ok messages ->
    notified_uids (checkForNewEmails parse srv c).2
      `sublist_of` ((fun msg => u32 (Msg.UID msg)) <$> messages)).
  { intros messages Hf.
    destruct (cycle_notified_uids srv c) as [->|(messages' & Hf' & ->)];
      [apply sublist_nil_l|].
    rewrite Hf in Hf'. injection Hf' as <-.
    apply fmap_sublist, sublist_filter. }
  split; [done|]. split.
  - intros messages Hf Hs. eapply StronglySorted_sublist; [by apply Hsub|done].
  - intros messages mbox [b Hb] Hc Hsel Hnext Hf.
    unfold notified_uids. rewrite cycle_notified_ids, Hb.
    unfold GetEmailsSinceUID. rewrite Hc, Hsel. cbn [wrap_err mbind result_bind].
    destruct (u32 (UIDNext mbox) <=? u32 (lastUID c + 1)) eqn:E;
      [apply Z.leb_le in E; lia|].
    rewrite Hf. cbn [wrap_err mbind result_bind].
    rewrite emails_since_filter. apply omap_parse_ids.
Qed.


(** ** [Start] *)


Lemma i32_small (z : Z) : - 2 ^ 31 <= z < 2 ^ 31 -> i32 z = z.
Proof. intros H. unfold i32. rewrite Z.mod_small; lia. Qed.




(** ** The client tracker *)

Lemma i32_add_l (a b : Z) : i32 (i32 a + b) = i32 (a + b).
Proof.
  unfold i32.
  replace (a + 2 ^ 31) with (a + 2 ^ 31 + 0) by lia.
  replace ((a + 2 ^ 31 + 0) mod 2 ^ 32 - 2 ^ 31 + b + 2 ^ 31)
    with ((a + 2 ^ 31 + 0) mod 2 ^ 32 + b) by lia.
  rewrite Zplus_mod_idemp_l. f_equal. f_equal. lia.
Qed.

Lemma OnClientConnected_count (srv : IMAPServer) (t : ClientTracker) :
  clientCount (OnClientConnected srv t).1 = i32 (clientCount t + 1).
Proof.
  unfold OnClientConnected.
  destruct (i32 (clientCount t + 1) =? 1); [|done].
  destruct (checker t) as [c|]; [|done]. by destruct (Start srv c).
Qed.

Lemma OnClientDisconnected_count (t : ClientTracker) :
  clientCount (OnClientDisconnected t).1 = i32 (clientCount t + -1).
Proof.
  unfold OnClientDisconnected.
  destruct (i32 (clientCount t + -1) =? 0); [|done].
  destruct (checker t) as [c|]; [|done]. by destruct (Stop c).
Qed.

Lemma i32_range (z : Z) : - 2 ^ 31 <= i32 z < 2 ^ 31.
Proof. unfold i32. pose proof (Z.mod_pos_bound (z + 2 ^ 31) (2 ^ 32)). lia. Qed.

Lemma on_event_count (srv : IMAPServer) (e : ClientEvent) (t : ClientTracker) :
  clientCount (on_event srv e t).1 = i32 (clientCount t + net [e]).
Proof.
  destruct e; cbn [on_event net]; rewrite Z.add_0_r.
  - apply OnClientConnected_count.
  - apply OnClientDisconnected_count.
Qed.

(** The count is the starting count plus connects minus disconnects, in
    32-bit two's complement. *)
Lemma run_events_count (srv : IMAPServer) (es : list ClientEvent) :
  forall t, - 2 ^ 31 <= clientCount t < 2 ^ 31 ->
    clientCount (run_events srv es t).1 = i32 (clientCount t + net es).
Proof.
  induction es as [|e es IH]; intros t Ht.
  - cbn. rewrite Z.add_0_r. by rewrite i32_small.
  - cbn [run_events].
    pose proof (on_event_count srv e t) as He.
    destruct (on_event srv e t) as [t1 evs1]. cbn [fst] in He.
    specialize (IH t1). destruct (run_events srv es t1) as [t2 evs2].
    cbn [fst] in *. rewrite IH by (rewrite He; apply i32_range).
    rewrite He, i32_add_l. f_equal.
    destruct e; cbn [net]; lia.
Qed.

Lemma net_bound (es : list ClientEvent) : - Z.of_nat (length es) <= net es <= Z.of_nat (length es).
Proof. induction es as [|[] es IH]; cbn [net length]; lia. Qed.

Lemma Start_calls (srv : IMAPServer) (c : EmailNotificationChecker) :
  start_calls (Start srv c).2 = 1%nat /\ stop_calls (Start srv c).2 = 0%nat.
Proof.
  unfold Start. destruct (broadcaster c); [|done].
  destruct (running c); [done|].
  destruct (GetLatestUID srv);
    cbn [config set_lastUID set_cancelFunc set_running];
    by destruct (0 <? check_interval (config c)).
Qed.

Lemma Stop_calls (c : EmailNotificationChecker) :
  start_calls (Stop c).2 = 0%nat /\ stop_calls (Stop c).2 = 1%nat.
Proof. unfold Stop. by destruct (cancelFunc c). Qed.

Lemma calls_app (evs1 evs2 : list Event) :
  start_calls (evs1 ++ evs2) = (start_calls evs1 + start_calls evs2)%nat
  /\ stop_calls (evs1 ++ evs2) = (stop_calls evs1 + stop_calls evs2)%nat.
Proof. unfold start_calls, stop_calls. by rewrite !filter_app, !length_app. Qed.

(** C2 (amended). The client count is the number of connects minus the
    number of disconnects, kept in a wrapping signed 32-bit integer and
    not floored at 0.  It is non-negative at every moment of a sequence
    in which the disconnects never outnumber the connects; a disconnect
    at count 0 takes it to -1.  So connect, disconnect, disconnect leaves
    the count at -1, with [Stop] called exactly once, and a further
    connect brings the count to 0 and does not call [Start]. *)
Theorem C2_client_count (srv : IMAPServer) (c : EmailNotificationChecker)
    (es : list ClientEvent) :
  let t0 := NewClientTracker c in
  clientCount (run_events srv es t0).1 = i32 (net es)
  /\ (paired es -> Z.of_nat (length es) < 2 ^ 31 ->
      forall k : nat,
        0 <= clientCount (run_events srv (take k es) t0).1
        /\ clientCount (run_events srv (take k es) t0).1 = net (take k es))
  /\ (let '(t3, evs3) :=
        run_events srv [ClientConnects; ClientDisconnects; ClientDisconnects] t0 in
      clientCount t3 = -1
      /\ stop_calls evs3 = 1%nat
      /\ start_calls evs3 = 1%nat
      /\ let '(t4, evs4) := OnClientConnected srv t3 in
         clientCount t4 = 0
         /\ evs4 = [EvLog (LogClientConnected 0)]
         /\ start_calls evs4 = 0%nat
         /\ checker t4 = checker t3).
Proof.
  cbn zeta. split; [|split].
  - rewrite run_events_count by (cbn; lia). done.
  - intros Hp Hlen k.
    rewrite run_events_count by (cbn; lia). cbn [NewClientTracker clientCount].
    rewrite Z.add_0_l.
    pose proof (net_bound (take k es)) as Hb. pose proof (Hp k) as Hk.
    assert (length (take k es) <= length es)%nat by (rewrite length_take; lia).
    rewrite i32_small by lia. done.
  - cbn [run_events on_event]. unfold OnClientConnected at 1.
    cbn [NewClientTracker clientCount checker].
    change (i32 (0 + 1) =? 1) with true. cbv iota.
    pose proof (Start_calls srv c) as [Hs1 Hs2].
    destruct (Start srv c) as [c1 evs1]. cbn [snd] in Hs1, Hs2.
    unfold OnClientDisconnected at 1. cbn [clientCount checker].
    change (i32 (i32 (0 + 1) + -1) =? 0) with true. cbv iota.
    pose proof (Stop_calls c1) as [Hp1 Hp2].
    destruct (Stop c1) as [c2 evs2]. cbn [snd] in Hp1, Hp2.
    unfold OnClientDisconnected, OnClientConnected. cbn [clientCount checker].
    change (i32 (i32 (i32 (0 + 1) + -1) + -1)) with (-1).
    change (-1 =? 0) with false. cbv iota.
    change (i32 (-1 + 1)) with 0. change (0 =? 1) with false. cbv iota.
    cbn [clientCount checker app].
    pose proof (fun l evs => eq_refl : stop_calls (EvLog l :: evs) = stop_calls evs) as Hl1.
    pose proof (fun l evs => eq_refl : start_calls (EvLog l :: evs) = start_calls evs) as Hl2.
    repeat split; try done.
    + rewrite Hl1. destruct (calls_app evs1
        (EvLog (LogClientDisconnected (i32 (i32 (0 + 1) + -1)))
           :: evs2 ++ [EvLog (LogClientDisconnected (-1))])) as [_ ->].
      rewrite Hl1. destruct (calls_app evs2 [EvLog (LogClientDisconnected (-1))]) as [_ ->].
      by rewrite Hs2, Hp2.
    + rewrite Hl2. destruct (calls_app evs1
        (EvLog (LogClientDisconnected (i32 (i32 (0 + 1) + -1)))
           :: evs2 ++ [EvLog (LogClientDisconnected (-1))])) as [-> _].
      rewrite Hl2. destruct (calls_app evs2 [EvLog (LogClientDisconnected (-1))]) as [-> _].
      by rewrite Hs1, Hp1.
Qed.


End CheckerProperties.

(** * Runes: the decoder sees only the bytes of the rune it decodes *)

Lemma app_nil_r_s (s : string) : s +:+ "" = s.
Proof. induction s as [|a s IH]; [done|]. change (String a (s +:+ "") = String a s). by rewrite IH. Qed.

Lemma app_assoc_s (s1 s2 s3 : string) : (s1 +:+ s2) +:+ s3 = s1 +:+ s2 +:+ s3.
Proof.
  induction s1 as [|a s1 IH]; [done|].
  change (String a ((s1 +:+ s2) +:+ s3) = String a (s1 +:+ s2 +:+ s3)). by rewrite IH.
Qed.

Lemma app_nil_l_s (s : string) : "" +:+ s = s.
Proof. done. Qed.

Lemma app_cons_s (a : ascii) (s1 s2 : string) : String a s1 +:+ s2 = String a (s1 +:+ s2).
Proof. done. Qed.

Lemma length_app_s (s1 s2 : string) :
  String.length (s1 +:+ s2) = (String.length s1 + String.length s2)%nat.
Proof. induction s1 as [|a s1 IH]; [done|]. rewrite app_cons_s. cbn. by rewrite IH. Qed.

Lemma app_eq_nil_s (s1 s2 : string) : s1 +:+ s2 = "" -> s1 = "" /\ s2 = "".
Proof. by destruct s1. Qed.

Ltac split_ifs :=
  repeat match goal with
         | |- context [if ?c then _ else _] => destruct c eqn:?
         end.

(** Case analysis on the length tests of the decoder. *)
Ltac nat_ifs :=
  repeat match goal with
         | |- context [(?a <? ?b)%nat] => destruct (Nat.ltb_spec a b)
         | |- context [(?a <=? ?b)%nat] => destruct (Nat.leb_spec a b)
         end; first [done | lia].

Lemma first_Lead (b : Z) (sz : nat) (lo hi : Z) :
  first b = Lead sz lo hi -> 128 <= lo /\ hi <= 191 /\ (2 <= sz <= 4)%nat.
Proof.
  unfold first.
  repeat match goal with
         | |- context [if ?c then _ else _] => destruct c
         end; intros H; try discriminate; injection H as <- <- <-; lia.
Qed.

(** The width of a decoded rune: at least one byte, at most what is there. *)
Lemma decode_width (s : string) :
  s <> "" -> (1 <= (DecodeRuneInString s).2 <= String.length s)%nat.
Proof.
  destruct s as [|a0 r0]; [done|]. intros _. cbn [DecodeRuneInString].
  destruct (first (byte a0)) as [| |sz lo hi] eqn:Hf; cbn [snd String.length]; try lia.
  apply first_Lead in Hf as (_ & _ & Hsz).
  destruct (S (String.length r0) <? sz)%nat eqn:Hlen; cbn [snd String.length]; [lia|].
  apply Nat.ltb_ge in Hlen.
  destruct r0 as [|a1 r1]; cbn [snd String.length]; [lia|].
  destruct ((byte a1 <? lo) || (hi <? byte a1)); cbn [snd String.length]; [lia|].
  destruct (sz <=? 2)%nat eqn:H2; cbn [snd String.length]; [lia|].
  destruct r1 as [|a2 r2]; cbn [snd String.length]; [lia|].
  destruct (negb (is_cont (byte a2))); cbn [snd String.length]; [lia|].
  destruct (sz <=? 3)%nat eqn:H3; cbn [snd String.length]; [lia|].
  destruct r2 as [|a3 r3]; cbn [snd String.length]; [lia|].
  destruct (negb (is_cont (byte a3))); cbn [snd String.length]; lia.
Qed.

Lemma first_lead_byte (b : Z) :
  first b <> Illegal ->
  (first b = Single -> b < 128) /\ (forall sz lo hi, first b = Lead sz lo hi -> 194 <= b).
Proof.
  unfold first.
  repeat match goal with
         | |- context [?x <? ?y] => destruct (Z.ltb_spec x y)
         | |- context [?x =? ?y] => destruct (Z.eqb_spec x y)
         end; intros Hi; split; intros; try done; lia.
Qed.

Lemma not_cont_out_of_range (b lo hi : Z) :
  128 <= lo -> hi <= 191 -> is_cont b = false -> (b <? lo) || (hi <? b) = true.
Proof.
  intros Hlo Hhi Hb. unfold is_cont in Hb.
  apply andb_false_iff in Hb as [Hb|Hb]; [apply Z.leb_gt in Hb|apply Z.leb_gt in Hb];
    apply orb_true_iff; [left|right]; apply Z.ltb_lt; lia.
Qed.

(** Bytes after the end of [s1] do not change what is decoded at its
    head, as long as they start a rune of their own. *)
Lemma decode_app (s1 s2 : string) :
  s1 <> "" -> rune_start s2 ->
  DecodeRuneInString (s1 +:+ s2) = DecodeRuneInString s1.
Proof.
  intros Hne Hs2. destruct s2 as [|b s2]; [by rewrite app_nil_r_s|].
  cbn [rune_start] in Hs2.
  destruct s1 as [|a0 r0]; [done|]. rewrite app_cons_s.
  cbn [DecodeRuneInString].
  destruct (first (byte a0)) as [| |sz lo hi] eqn:Hf; try done.
  apply first_Lead in Hf as (Hlo & Hhi & Hsz).
  pose proof (not_cont_out_of_range (byte b) lo hi Hlo Hhi Hs2) as Hout.
  assert (Hnb : negb (is_cont (byte b)) = true) by (by rewrite Hs2).
  cbn [String.length]. rewrite length_app_s. cbn [String.length].
  destruct r0 as [|a1 r1];
    [rewrite app_nil_l_s; cbn [String.length Nat.add]; rewrite Hout; nat_ifs|].
  rewrite app_cons_s. cbn [String.length].
  destruct ((byte a1 <? lo) || (hi <? byte a1)); [nat_ifs|].
  destruct r1 as [|a2 r2];
    [rewrite app_nil_l_s; cbn [String.length Nat.add]; rewrite Hnb; nat_ifs|].
  rewrite app_cons_s. cbn [String.length].
  destruct (negb (is_cont (byte a2))); [nat_ifs|].
  destruct r2 as [|a3 r3];
    [rewrite app_nil_l_s; cbn [String.length Nat.add]; rewrite Hnb; nat_ifs|].
  rewrite app_cons_s. cbn [String.length]. nat_ifs.
Qed.

(** ** The rune list, one rune at a time *)

Lemma sdrop_length (n : nat) :
  forall s, (n <= String.length s)%nat ->
    String.length (sdrop n s) = (String.length s - n)%nat.
Proof.
  induction n as [|n IH]; intros [|a s] Hn; cbn in *; try done; try lia.
  apply IH. lia.
Qed.

Lemma substring_sdrop (n : nat) :
  forall s, (n <= String.length s)%nat -> substring 0 n s +:+ sdrop n s = s.
Proof.
  induction n as [|n IH]; intros [|a s] Hn; cbn in *; try done; try lia.
  rewrite app_cons_s, IH; [done|lia].
Qed.

Lemma substring_0_app_l (n : nat) :
  forall s1 s2, (n <= String.length s1)%nat ->
    substring 0 n (s1 +:+ s2) = substring 0 n s1.
Proof.
  induction n as [|n IH]; intros [|a s1] s2 Hn; cbn in *; try lia.
  - by destruct s2.
  - done.
  - rewrite app_cons_s. cbn. rewrite IH; [done|lia].
Qed.

Lemma sdrop_app_l (n : nat) :
  forall s1 s2, (n <= String.length s1)%nat ->
    sdrop n (s1 +:+ s2) = sdrop n s1 +:+ s2.
Proof.
  induction n as [|n IH]; intros [|a s1] s2 Hn; cbn in *; try done; try lia.
  rewrite app_cons_s. cbn. apply IH. lia.
Qed.

Lemma runes_from_sdrop (s : string) :
  forall k, runes_from k s = runes_from 0 (sdrop k s).
Proof.
  induction s as [|a s IH]; intros [|k]; try done.
  cbn [runes_from sdrop]. apply IH.
Qed.

(** [runes] decodes the first rune and goes on behind it. *)
Lemma runes_unfold (s : string) :
  s <> "" ->
  runes s = Rune (DecodeRuneInString s).1
                 (substring 0 (DecodeRuneInString s).2 s)
              :: runes (sdrop (DecodeRuneInString s).2 s).
Proof.
  intros Hne. pose proof (decode_width s Hne) as Hw.
  destruct s as [|a rest]; [done|]. unfold runes. cbn [runes_from].
  destruct (DecodeRuneInString (String a rest)) as [r w]. cbn [fst snd] in *.
  rewrite runes_from_sdrop. destruct w as [|w]; [lia|].
  replace (S w - 1)%nat with w by lia. done.
Qed.

(** Induction on a string by the rune at its head. *)
Lemma rune_ind (P : string -> Prop) :
  P "" ->
  (forall s, s <> "" -> P (sdrop (DecodeRuneInString s).2 s) -> P s) ->
  forall s, P s.
Proof.
  intros Hnil Hstep s.
  remember (String.length s) as n eqn:Hn. revert s Hn.
  induction n as [n IH] using lt_wf_ind. intros s Hn.
  destruct s as [|a rest] eqn:Es; [done|]. rewrite <- Es in *.
  assert (Hne : s <> "") by (by rewrite Es).
  apply Hstep; [done|].
  pose proof (decode_width s Hne) as Hw.
  eapply IH; [|done]. rewrite sdrop_length by lia. lia.
Qed.

Lemma bytes_of_runes (s : string) : bytes_of (runes s) = s.
Proof.
  induction s as [|s Hne IH] using rune_ind; [done|].
  rewrite runes_unfold by done. unfold bytes_of in *. cbn [foldr rune_bytes].
  rewrite IH. apply substring_sdrop. by apply decode_width.
Qed.

(** Decoding [s1] is not disturbed by a string behind it at which a rune
    starts. *)
Lemma runes_app (s1 s2 : string) :
  rune_start s2 -> runes (s1 +:+ s2) = (runes s1 ++ runes s2)%list.
Proof.
  intros Hs2. induction s1 as [|s1 Hne IH] using rune_ind; [done|].
  pose proof (decode_width s1 Hne) as Hw.
  assert (Hne' : s1 +:+ s2 <> "").
  { intros [? _]%app_eq_nil_s. done. }
  rewrite (runes_unfold (s1 +:+ s2)), (runes_unfold s1) by done.
  rewrite decode_app by done.
  rewrite substring_0_app_l, sdrop_app_l by lia.
  by rewrite IH.
Qed.

Lemma bytes_of_app (rs1 rs2 : list rune) :
  bytes_of (rs1 ++ rs2)%list = bytes_of rs1 +:+ bytes_of rs2.
Proof.
  unfold bytes_of. induction rs1 as [|r rs1 IH]; [done|].
  cbn [app foldr]. by rewrite IH, app_assoc_s.
Qed.

Lemma IsSpace_RuneError : IsSpace RuneError = false.
Proof. done. Qed.

Lemma decode_ok (s : string) :
  s <> "" ->
  rune_ok (Rune (DecodeRuneInString s).1 (substring 0 (DecodeRuneInString s).2 s)).
Proof.
  intros Hne. pose proof (decode_width s Hne) as Hw. split; cbn [rune_bytes rune_val].
  - destruct s as [|a rest]; [done|].
    destruct ((DecodeRuneInString (String a rest)).2) as [|w]; [lia|]. done.
  - intros Hsp t. destruct s as [|a rest]; [done|].
    destruct ((DecodeRuneInString (String a rest)).2) as [|w] eqn:Ew; [lia|].
    cbn [substring]. rewrite app_cons_s. cbn [rune_start].
    clear Hw Ew. cbn [DecodeRuneInString] in Hsp.
    unfold is_cont.
    destruct (first (byte a)) as [| |sz lo hi] eqn:Hf.
    + pose proof (first_lead_byte (byte a)) as [Hs _]; [by rewrite Hf|].
      specialize (Hs Hf).
      apply andb_false_iff. left. apply Z.leb_gt. lia.
    + done.
    + pose proof (first_lead_byte (byte a)) as [_ Hl]; [by rewrite Hf|].
      specialize (Hl _ _ _ Hf).
      apply andb_false_iff. right. apply Z.leb_gt. lia.
Qed.

Lemma runes_ok (s : string) : Forall rune_ok (runes s).
Proof.
  induction s as [|s Hne IH] using rune_ind; [constructor|].
  rewrite runes_unfold by done. constructor; [by apply decode_ok|done].
Qed.

(** ** Trimming does not change the fields *)

Lemma drop_space_split (rs : list rune) :
  exists pre, rs = (pre ++ drop_space rs)%list /\ Forall is_space_rune pre.
Proof.
  induction rs as [|r rs (pre & Heq & Hpre)]; [by exists []|].
  cbn [drop_space]. destruct (IsSpace (rune_val r)) eqn:E.
  - exists (r :: pre). split; [cbn; by rewrite <- Heq|by constructor].
  - by exists [].
Qed.

(** What [TrimSpace] keeps, cut out of the rune list. *)
Lemma trim_split (rs : list rune) :
  exists pre post,
    rs = (pre ++ rev (drop_space (rev (drop_space rs))) ++ post)%list
    /\ Forall is_space_rune pre /\ Forall is_space_rune post.
Proof.
  destruct (drop_space_split rs) as (pre & Heq & Hpre).
  destruct (drop_space_split (rev (drop_space rs))) as (tl & Heq' & Htl).
  exists pre, (rev tl). split; [|split; [done|by apply Forall_rev]].
  rewrite Heq at 1. f_equal.
  rewrite <- (rev_involutive (drop_space rs)) at 1.
  rewrite Heq' at 1. by rewrite rev_app_distr.
Qed.

Lemma runes_suffix (pre : list rune) :
  forall s rs, runes s = (pre ++ rs)%list -> runes (bytes_of rs) = rs.
Proof.
  induction pre as [|r pre IH]; intros s rs Hs.
  - cbn in Hs. by rewrite <- Hs, bytes_of_runes.
  - destruct s as [|a rest] eqn:Es; [done|]. rewrite <- Es in *.
    rewrite runes_unfold in Hs by (by rewrite Es).
    injection Hs as _ Hs. by eapply IH.
Qed.

Lemma runes_prefix (s : string) (rs post : list rune) :
  runes s = (rs ++ post)%list -> Forall is_space_rune post ->
  runes (bytes_of rs) = rs.
Proof.
  intros Hs Hpost.
  pose proof (runes_suffix rs s post Hs) as Hsuf.
  assert (Hstart : rune_start (bytes_of post)).
  { destruct post as [|p post]; [done|].
    pose proof (runes_ok s) as Hok. rewrite Hs in Hok.
    apply Forall_app in Hok as [_ Hok]. apply Forall_cons in Hok as [[_ Hp] _].
    apply Forall_cons in Hpost as [Hsp _].
    unfold bytes_of. cbn [foldr]. by apply Hp. }
  pose proof (bytes_of_runes s) as Hb. rewrite Hs, bytes_of_app in Hb.
  rewrite <- Hb, runes_app, Hsuf in Hs by done.
  by apply app_inv_tail in Hs.
Qed.

Lemma runes_TrimSpace (s : string) :
  runes (TrimSpace s) = rev (drop_space (rev (drop_space (runes s)))).
Proof.
  unfold TrimSpace.
  destruct (trim_split (runes s)) as (pre & post & Heq & Hpre & Hpost).
  set (mid := rev (drop_space (rev (drop_space (runes s))))) in *.
  pose proof (runes_suffix pre s (mid ++ post) Heq) as Hsuf.
  by eapply runes_prefix.
Qed.

Lemma fields_loop_leading (pre rs : list rune) :
  Forall is_space_rune pre -> fields_loop "" (pre ++ rs) = fields_loop "" rs.
Proof.
  induction 1 as [|r pre Hr _ IH]; [done|].
  cbn [app fields_loop]. unfold is_space_rune in Hr. by rewrite Hr.
Qed.

Lemma fields_loop_trailing (post : list rune) :
  Forall is_space_rune post ->
  forall rs cur, fields_loop cur (rs ++ post) = fields_loop cur rs.
Proof.
  intros Hpost rs. induction rs as [|r rs IH]; intros cur.
  - cbn [app]. revert cur. induction Hpost as [|p post Hp _ IHp]; intros cur; [done|].
    cbn [fields_loop]. unfold is_space_rune in Hp. rewrite Hp.
    destruct cur; [apply IHp|]. by rewrite IHp.
  - cbn [app fields_loop]. destruct (IsSpace (rune_val r)); [|apply IH].
    destruct cur; by rewrite IH.
Qed.

Lemma Fields_TrimSpace (s : string) : Fields (TrimSpace s) = Fields s.
Proof.
  unfold Fields. rewrite runes_TrimSpace.
  destruct (trim_split (runes s)) as (pre & post & Heq & Hpre & Hpost).
  rewrite Heq at 2.
  by rewrite fields_loop_leading, fields_loop_trailing.
Qed.

(** ** Joining the fields is collapsing the white space *)

Lemma fields_loop_nonempty (rs : list rune) :
  forall cur, Forall (fun f => f <> "") (fields_loop cur rs).
Proof.
  induction rs as [|r rs IH]; intros cur.
  - cbn. destruct cur; by repeat constructor.
  - cbn [fields_loop]. destruct (IsSpace (rune_val r)); [|apply IH].
    destruct cur; [apply IH|]. constructor; [done|apply IH].
Qed.

Lemma Join_cons (e : string) (rest : list string) (sep : string) :
  Join (e :: rest) sep
  = match rest with [] => e | _ => e +:+ sep +:+ Join rest sep end.
Proof. by destruct rest. Qed.

Lemma Join_empty (fs : list string) (sep : string) :
  Forall (fun f => f <> "") fs -> Join fs sep = "" -> fs = [].
Proof.
  intros Hfs. destruct fs as [|f fs]; [done|].
  apply Forall_cons in Hfs as [Hf _]. rewrite Join_cons.
  destruct fs; [done|]. by intros [? _]%app_eq_nil_s.
Qed.

(** Past a word, pending white space shows as one space in front of what
    follows, if anything follows. *)
Lemma collapse_AfterSpace (rs : list rune) :
  Forall rune_ok rs ->
  collapse_spaces AfterSpace rs
  = match collapse_spaces AtStart rs with
    | EmptyString => ""
    | rest => " " +:+ rest
    end.
Proof.
  induction 1 as [|r rs [Hr _] _ IH]; [done|].
  cbn [collapse_spaces]. destruct (IsSpace (rune_val r)); [done|].
  rewrite app_nil_l_s.
  destruct (rune_bytes r +:+ collapse_spaces InWord rs) eqn:E; [|done].
  by apply app_eq_nil_s in E as [? _].
Qed.

Lemma Join_fields_loop (rs : list rune) :
  Forall rune_ok rs ->
  forall cur,
    Join (fields_loop cur rs) " "
    = match cur with
      | EmptyString => collapse_spaces AtStart rs
      | _ => cur +:+ collapse_spaces InWord rs
      end.
Proof.
  induction 1 as [|r rs [Hr Hsp] Hrs IH]; intros cur.
  - cbn. destruct cur; [done|]. by rewrite app_nil_r_s.
  - cbn [fields_loop collapse_spaces].
    destruct (IsSpace (rune_val r)) eqn:E.
    + destruct cur as [|a cur]; [apply IH|].
      rewrite Join_cons, collapse_AfterSpace by done.
      pose proof (IH "") as H0. cbn iota in H0.
      pose proof (fields_loop_nonempty rs "") as Hne.
      destruct (fields_loop "" rs) as [|f fs] eqn:Ef.
      * cbn in H0. rewrite <- H0. by rewrite app_nil_r_s.
      * rewrite <- H0.
        destruct (Join (f :: fs) " ") eqn:Ej; [|done].
        by apply Join_empty in Ej.
    + rewrite app_nil_l_s. rewrite IH.
      destruct (cur +:+ rune_bytes r) eqn:Ec.
      * apply app_eq_nil_s in Ec as [_ ?]. done.
      * rewrite <- Ec. destruct cur; [done|]. by rewrite app_assoc_s.
Qed.

(** The first two statements of [GetEmailPreview] normalize white space as
    the specification words it. *)
Lemma normalize_space_normalized (body : string) :
  normalize_space body = normalized body.
Proof.
  unfold normalize_space, normalized. rewrite Fields_TrimSpace. unfold Fields.
  by rewrite Join_fields_loop by apply runes_ok.
Qed.

(** * The preview *)

Lemma len_substring_0 (s : string) (n : Z) :
  0 <= n <= len s -> len (substring 0 (Z.to_nat n) s) = n.
Proof.
  intros H. unfold len in *. rewrite length_substring_0; lia.
Qed.

(** C10. For a maximum length that is not negative, [GetEmailPreview]
    first normalizes the white space of the body: leading and trailing
    white space goes, every run of white space between words becomes one
    space.  If the normalized string has at most [maxLen] bytes it is the
    result; otherwise the result is its first [maxLen] bytes followed by
    three dots.  So the result never has more than [maxLen + 3] bytes.
    The cut counts bytes, not characters: cutting the two-byte encoding
    of U+00E9 after one byte leaves a byte that no longer decodes. *)
Theorem C10_preview_truncation (body : string) (maxLen : Z) :
  0 <= maxLen ->
  let n := Join (Fields (TrimSpace body)) " " in
  n = normalized body
  /\ (len n <= maxLen -> GetEmailPreview body maxLen = Some n)
  /\ (maxLen < len n ->
      GetEmailPreview body maxLen = Some (substring 0 (Z.to_nat maxLen) n +:+ "..."))
  /\ (exists p, GetEmailPreview body maxLen = Some p /\ len p <= maxLen + 3)
  /\ (DecodeRuneInString e_acute = (233, 2%nat)
      /\ GetEmailPreview e_acute 1 = Some (String (chr 195) "...")
      /\ DecodeRuneInString (String (chr 195) "...") = (RuneError, 1%nat)).
Proof.
  intros Hmax. cbn zeta. fold (normalize_space body).
  split; [apply normalize_space_normalized|].
  rewrite GetEmailPreview_eq by done.
  destruct (len (normalize_space body) <=? maxLen) eqn:E.
  - apply Z.leb_le in E. repeat split; try done; try lia.
    exists (normalize_space body). split; [done|lia].
  - apply Z.leb_gt in E. repeat split; try done; try lia.
    eexists. split; [done|].
    rewrite len_app, len_substring_0 by lia. done.
Qed.

(** * The claims at concrete mailboxes *)

Lemma C10_witness :
  GetEmailPreview "  Hello   world  " 5 = Some "Hello..."
  /\ normalized "  Hello   world  " = "Hello world".
Proof.
  destruct (C10_preview_truncation "  Hello   world  " 5) as (Hn & _ & H & _); [lia|].
  split.
  - rewrite H; [reflexivity|vm_compute; reflexivity].
  - rewrite <- Hn. vm_compute; reflexivity.
Defined.

Lemma C7_witness :
  checkForNewEmails raw_parse unreachable (checker_at 13)
  = (checker_at 13,
     [EvLog (LogChecking 13);
      EvLog (LogCheckError "failed to connect to IMAP server: timeout")]).
Proof.
  pose proof (C7_fetch_failure_keeps_watermark raw_parse unreachable unreachable
                (checker_at 13) "failed to connect to IMAP server: timeout") as H.
  destruct (checkForNewEmails raw_parse unreachable (checker_at 13)) as [c' evs].
  destruct H as (-> & _ & -> & _); [vm_compute; reflexivity|reflexivity].
Defined.





Lemma cycle_13 :
  GetEmailsSinceUID (mailbox [13] 14 true) (lastUID (checker_at 12))
  = Ok [email_of_msg (msg_of 13)].
Proof. vm_compute. reflexivity. Qed.

(** C1, as stated, fails: the notification for message 13 carries a
    field [title] next to the five fields of the contract. *)
Lemma C1_counterexample :
  exists params,
    EvBroadcast "new_email" params
      ∈ (checkForNewEmails raw_parse (mailbox [13] 14 true) (checker_at 12)).2
    /\ string_field "email_id" params = Some "13"
    /\ "title" ∈ dom params
    /\ dom params <> contract_keys.
Proof.
  exists (new_email_params (email_of_msg (msg_of 13))
            (preview_of raw_parse (mailbox [13] 14 true) (email_of_msg (msg_of 13)))).
  split; [|split; [|split]].
  - apply elem_of_broadcasts. rewrite cycle_broadcasts, cycle_13.
    apply list_elem_of_here.
  - apply params_fields.
  - rewrite params_dom. unfold notification_keys. set_solver.
  - rewrite params_dom. intros H.
    assert (Hin : "title" ∈ contract_keys).
    { rewrite <- H. unfold notification_keys. set_solver. }
    unfold contract_keys in Hin.
    rewrite !elem_of_union, !elem_of_singleton in Hin.
    by repeat destruct Hin as [Hin|Hin].
Qed.

Lemma C1_witness :
  exists params,
    EvBroadcast "new_email" params
      ∈ (checkForNewEmails raw_parse (mailbox [13] 14 true) (checker_at 12)).2
    /\ dom params = notification_keys
    /\ string_field "received_at" params = Some "2024-05-17T12:00:00Z".
Proof.
  destruct (C1_notification_payload raw_parse (mailbox [13] 14 true) (checker_at 12))
    as [H1 H2].
  destruct (H2 [email_of_msg (msg_of 13)] (email_of_msg (msg_of 13)))
    as (params & Hin & Hid).
  - by eexists.
  - vm_compute; reflexivity.
  - apply list_elem_of_here.
  - exists params. split; [exact Hin|].
    destruct (H1 _ _ Hin) as (_ & Hdom & newEmails & email & Hget & Hmem & _ & _ & _ & Hrecv & _).
    split; [exact Hdom|].
    rewrite Hrecv.
    assert (Hnew : newEmails = [email_of_msg (msg_of 13)]).
    { pose proof cycle_13 as H13. rewrite Hget in H13. by injection H13. }
    subst newEmails. apply list_elem_of_singleton in Hmem as ->.
    vm_compute; reflexivity.
Defined.

Lemma cycle_12_13_14 :
  GetEmailsSinceUID (mailbox [12; 13; 14] 15 true) (lastUID (checker_at 13))
  = Ok [email_of_msg (msg_of 14)].
Proof. vm_compute. reflexivity. Qed.

Lemma C4_witness :
  (FormatUint (u32 (Msg.UID (msg_of 13)))
     ∉ notified_ids
         (checkForNewEmails raw_parse (mailbox [12; 13; 14] 15 true) (checker_at 13)).2)
  /\ exists params messages msg,
       EvBroadcast "new_email" params
         ∈ (checkForNewEmails raw_parse (mailbox [12; 13; 14] 15 true) (checker_at 13)).2
       /\ srv_fetch_uid_range (mailbox [12; 13; 14] 15 true) (u32 (13 + 1)) 0 = Ok messages
       /\ msg ∈ messages
       /\ 13 < u32 (Msg.UID msg).
Proof.
  destruct (C4_only_above_watermark raw_parse (mailbox [12; 13; 14] 15 true) (checker_at 13))
    as [H1 H2].
  split.
  - apply H2. vm_compute. discriminate.
  - destruct (H1 "new_email"
                (new_email_params (email_of_msg (msg_of 14))
                   (preview_of raw_parse (mailbox [12; 13; 14] 15 true)
                      (email_of_msg (msg_of 14)))))
      as (messages & msg & Hf & Hin & Hgt & _).
    + apply elem_of_broadcasts. rewrite cycle_broadcasts, cycle_12_13_14.
      apply list_elem_of_here.
    + eexists _, messages, msg. repeat split; try done.
      apply elem_of_broadcasts. rewrite cycle_broadcasts, cycle_12_13_14.
      apply list_elem_of_here.
Defined.

(** C6, as stated, fails: when the fetch response lists message 15 before
    message 14, so do the notifications. *)
Lemma C6_counterexample :
  srv_fetch_uid_range (mailbox [15; 14] 16 true) (u32 (13 + 1)) 0
  = Ok [msg_of 15; msg_of 14]
  /\ notified_ids
       (checkForNewEmails raw_parse (mailbox [15; 14] 16 true) (checker_at 13)).2
     = ["15"; "14"]
  /\ notified_uids
       (checkForNewEmails raw_parse (mailbox [15; 14] 16 true) (checker_at 13)).2
     = [15; 14]
  /\ ~ StronglySorted Z.le
       (notified_uids
          (checkForNewEmails raw_parse (mailbox [15; 14] 16 true) (checker_at 13)).2).
Proof.
  assert (H : notified_uids
       (checkForNewEmails raw_parse (mailbox [15; 14] 16 true) (checker_at 13)).2
     = [15; 14]) by (vm_compute; reflexivity).
  split; [reflexivity|]. split; [vm_compute; reflexivity|]. split; [exact H|].
  rewrite H. intros Hs. apply StronglySorted_inv in Hs as [_ Hall].
  apply Forall_cons in Hall as [Hle _]. lia.
Qed.

Lemma C6_witness :
  notified_uids
    (checkForNewEmails raw_parse (mailbox [13; 14; 15] 16 true) (checker_at 13)).2
  = [14; 15]
  /\ StronglySorted Z.le
       (notified_uids
          (checkForNewEmails raw_parse (mailbox [13; 14; 15] 16 true) (checker_at 13)).2).
Proof.
  destruct (C6_order_of_response raw_parse (mailbox [13; 14; 15] 16 true) (checker_at 13))
    as (Hsub & Hsorted & Heq).
  split.
  - rewrite (Heq [msg_of 13; msg_of 14; msg_of 15] (mkSelectData 3 16)).
    + vm_compute; reflexivity.
    + by eexists.
    + reflexivity.
    + reflexivity.
    + vm_compute; reflexivity.
    + reflexivity.
  - apply (Hsorted [msg_of 13; msg_of 14; msg_of 15]); [reflexivity|].
    change ((fun msg => u32 (Msg.UID msg)) <$> [msg_of 13; msg_of 14; msg_of 15])
      with [13; 14; 15].
    repeat constructor; lia.
Defined.

(** C2, as stated, fails: the second disconnect takes the count below 0,
    and the connect after it brings the count to 0, not 1, does not call
    [Start] and leaves the run state as it was. *)
Lemma C2_counterexample :
  clientCount (run_events inbox_12 [ClientConnects; ClientDisconnects; ClientDisconnects]
                 (NewClientTracker fresh_checker)).1 = -1
  /\ ~ 0 <= clientCount
             (run_events inbox_12 [ClientConnects; ClientDisconnects; ClientDisconnects]
                (NewClientTracker fresh_checker)).1
  /\ clientCount
       (run_events inbox_12
          [ClientConnects; ClientDisconnects; ClientDisconnects; ClientConnects]
          (NewClientTracker fresh_checker)).1 = 0
  /\ start_calls
       (OnClientConnected inbox_12
          (run_events inbox_12 [ClientConnects; ClientDisconnects; ClientDisconnects]
             (NewClientTracker fresh_checker)).1).2 = 0%nat
  /\ running
       <$> checker
             (run_events inbox_12
                [ClientConnects; ClientDisconnects; ClientDisconnects; ClientConnects]
                (NewClientTracker fresh_checker)).1
     = running
       <$> checker
             (run_events inbox_12 [ClientConnects; ClientDisconnects; ClientDisconnects]
                (NewClientTracker fresh_checker)).1.
Proof.
  assert (H3 : clientCount (run_events inbox_12
                  [ClientConnects; ClientDisconnects; ClientDisconnects]
                  (NewClientTracker fresh_checker)).1 = -1) by (vm_compute; reflexivity).
  rewrite H3. repeat split; first [lia | vm_compute; reflexivity].
Qed.

Lemma C2_witness :
  0 <= clientCount
         (run_events inbox_12 (take 2 [ClientConnects; ClientConnects; ClientDisconnects])
            (NewClientTracker fresh_checker)).1
  /\ clientCount
       (run_events inbox_12 (take 2 [ClientConnects; ClientConnects; ClientDisconnects])
          (NewClientTracker fresh_checker)).1 = 2.
Proof.
  destruct (C2_client_count inbox_12 fresh_checker
              [ClientConnects; ClientConnects; ClientDisconnects]) as (_ & H & _).
  destruct (H (ltac:(intros [|[|[|[|j]]]]; vm_compute; discriminate))
              (ltac:(vm_compute; reflexivity)) 2%nat) as [H1 H2].
  split; [exact H1|]. rewrite H2. reflexivity.
Defined.

(** * Further properties of the code *)

Example GetInbox_test :
  GetInbox store_12 20 true
  = Ok [email_of_msg (bare_msg 12 []); email_of_msg (bare_msg 11 [])]
  /\ GetInbox store_12 2 false
     = Ok [email_of_msg (bare_msg 12 []); email_of_msg (bare_msg 11 []);
           email_of_msg (bare_msg 10 [FlagSeen])]
  /\ GetInbox store_ranged 2 false
     = Ok [email_of_msg (bare_msg 12 []); email_of_msg (bare_msg 11 [])]
  /\ inbox_start 3 2 = 2 /\ inbox_start 3 20 = 1 /\ inbox_start 3 (-1) = 1
  /\ inbox_start 3 0 = 4
  /\ inbox_range 3 2 = (2, 3) /\ inbox_range 3 0 = (3, 4)
  /\ inbox_range 3 4294967298 = (2, 3) /\ inbox_range 3 (-4294967294) = (2, 3)
  /\ AddRange 14 0 = (14, 0) /\ AddRange 0 3 = (3, 0).
Proof. vm_compute. done. Qed.

(** ** The life cycle of the checker *)

(** X1. [Stop] is idempotent and touches neither the watermark nor the
    run flag: a second [Stop] finds no cancel function and returns the
    checker as the first one left it. *)
Theorem X1_Stop_idempotent (c : EmailNotificationChecker) :
  Stop (Stop c).1 = ((Stop c).1, [EvStopCalled])
  /\ lastUID (Stop c).1 = lastUID c
  /\ running (Stop c).1 = running c
  /\ broadcaster (Stop c).1 = broadcaster c
  /\ cancelFunc (Stop c).1 = false.
Proof.
  unfold Stop. destruct (cancelFunc c) eqn:E; cbn; [done|].
  rewrite E. done.
Qed.

Lemma Start_running (srv : IMAPServer) (c : EmailNotificationChecker) :
  running c = true -> Start srv c = (c, match broadcaster c with
                                        | Some _ => [EvStartCalled]
                                        | None => [EvStartCalled; EvLog LogNotificationsDisabled]
                                        end).
Proof. intros H. unfold Start. rewrite H. by destruct (broadcaster c). Qed.

(** X2. [Start] on a checker that is already running is a no-op: after a
    [Start] that went through, a second [Start], against whatever mailbox,
    returns at once, so there is still one goroutine and the watermark is
    not read again. *)
Theorem X2_Start_twice (srv srv' : IMAPServer) (c : EmailNotificationChecker) :
  is_Some (broadcaster c) ->
  running c = false ->
  Start srv' (Start srv c).1 = ((Start srv c).1, [EvStartCalled]).
Proof.
  intros [b Hb] Hrun.
  assert (H : running (Start srv c).1 = true /\ broadcaster (Start srv c).1 = Some b).
  { unfold Start. rewrite Hb, Hrun.
    destruct (GetLatestUID srv);
      cbn [config set_lastUID set_cancelFunc set_running];
      by destruct (0 <? check_interval (config c)). }
  destruct H as [H1 H2]. rewrite Start_running by done. by rewrite H2.
Qed.

(** X3. Once [Stop] has cancelled the context of a live goroutine, the
    goroutine's exit clears the run flag and leaves no goroutine behind;
    the watermark stays.  After that a tick runs nothing and a further
    exit does nothing. *)
Theorem X3_stop_then_exit (c : EmailNotificationChecker) (g : Goroutine)
    (tick : IMAPServer) (parse : string -> string * string * list AttachmentInfo.t) :
  cancelFunc c = true ->
  loop c = Some g ->
  loop_done (Stop c).1 = (stop_and_exit c, [EvLog LogStopped])
  /\ running (stop_and_exit c) = false
  /\ loop (stop_and_exit c) = None
  /\ lastUID (stop_and_exit c) = lastUID c
  /\ loop_tick parse tick (stop_and_exit c) = (stop_and_exit c, [])
  /\ loop_done (stop_and_exit c) = (stop_and_exit c, []).
Proof.
  intros Hc Hl. unfold stop_and_exit, Stop, loop_done, loop_tick.
  rewrite Hc. cbn. rewrite Hl. cbn. done.
Qed.

(** X4. A restart reads the watermark anew: after [Stop] and the exit of
    the goroutine, [Start] sets the watermark to what [GetLatestUID]
    returns then, whatever the watermark was before, so it can go down. *)
Theorem X4_restart_rederives_watermark (srv : IMAPServer)
    (c : EmailNotificationChecker) (g : Goroutine) (uid : Z) :
  is_Some (broadcaster c) ->
  cancelFunc c = true ->
  loop c = Some g ->
  GetLatestUID srv = Ok uid ->
  lastUID (Start srv (stop_and_exit c)).1 = uid
  /\ running (Start srv (stop_and_exit c)).1 = true.
Proof.
  intros [b Hb] Hc Hl Hu. unfold stop_and_exit, Stop, loop_done.
  rewrite Hc. cbn. rewrite Hl. cbn. unfold Start. cbn. rewrite Hb, Hu.
  cbn [config set_lastUID set_cancelFunc set_running].
  by destruct (0 <? check_interval (config c)).
Qed.

(** X5. A [Start] that comes after [Stop] but before the goroutine has
    seen the cancellation does nothing, because the run flag is still
    set.  So connect, disconnect, connect in quick succession leaves one
    client counted and, once the old goroutine exits, no poller. *)
Theorem X5_quick_reconnect (srv : IMAPServer) (c : EmailNotificationChecker) :
  is_Some (broadcaster c) ->
  running c = false ->
  0 < check_interval (config c) ->
  let '(t, evs) :=
    run_events srv [ClientConnects; ClientDisconnects; ClientConnects]
               (NewClientTracker c) in
  clientCount t = 1
  /\ start_calls evs = 2%nat
  /\ exists c3,
       checker t = Some c3
       /\ running c3 = true
       /\ cancelFunc c3 = false
       /\ (g_cancelled <$> loop c3) = Some true
       /\ running (loop_done c3).1 = false
       /\ loop (loop_done c3).1 = None.
Proof.
  intros [b Hb] Hrun Hint. cbn [run_events on_event].
  unfold OnClientConnected at 1. cbn [NewClientTracker clientCount checker].
  change (i32 (0 + 1) =? 1) with true. cbv iota.
  unfold Start at 1. rewrite Hb, Hrun.
  destruct (GetLatestUID srv) as [uid|e];
    cbn [config set_lastUID set_cancelFunc set_running];
    apply Z.ltb_lt in Hint; rewrite Hint.
  all: unfold OnClientDisconnected; cbn [clientCount checker];
    change (i32 (i32 (0 + 1) + -1) =? 0) with true; cbv iota;
    unfold Stop at 1; cbn;
    unfold OnClientConnected; cbn [clientCount checker];
    change (i32 (i32 (i32 (0 + 1) + -1) + 1) =? 1) with true; cbv iota;
    unfold Start; cbn; rewrite Hb; cbn.
  all: repeat split; try done; eexists; repeat split; done.
Qed.

(** ** The client tracker *)

Lemma on_event_calls (srv : IMAPServer) (e : ClientEvent) (t : ClientTracker)
    (c : EmailNotificationChecker) :
  checker t = Some c ->
  let count := i32 (clientCount t + net [e]) in
  is_Some (checker (on_event srv e t).1)
  /\ start_calls (on_event srv e t).2
     = match e with
       | ClientConnects => one_if (count =? 1)
       | ClientDisconnects => 0%nat
       end
  /\ stop_calls (on_event srv e t).2
     = match e with
       | ClientConnects => 0%nat
       | ClientDisconnects => one_if (count =? 0)
       end.
Proof.
  intros Hc. cbn zeta. destruct e; cbn [on_event net]; rewrite Z.add_0_r.
  - unfold OnClientConnected. rewrite Hc.
    destruct (i32 (clientCount t + 1) =? 1); [|cbn; by repeat split].
    pose proof (Start_calls srv c) as [H1 H2].
    destruct (Start srv c) as [c' evs]. cbn [fst snd] in *.
    repeat split; [by eexists | exact H1 | exact H2].
  - unfold OnClientDisconnected. rewrite Hc.
    destruct (i32 (clientCount t + -1) =? 0); [|cbn; by repeat split].
    pose proof (Stop_calls c) as [H1 H2].
    destruct (Stop c) as [c' evs]. cbn [fst snd] in *.
    repeat split; [by eexists | exact H1 | exact H2].
Qed.

Lemma run_events_calls (srv : IMAPServer) (es : list ClientEvent) :
  forall t,
    is_Some (checker t) ->
    0 <= clientCount t ->
    clientCount t + Z.of_nat (length es) < 2 ^ 31 ->
    (forall k : nat, 0 <= clientCount t + net (take k es)) ->
    (start_calls (run_events srv es t).2 + one_if (0 <? clientCount t)%Z
     = stop_calls (run_events srv es t).2
       + one_if (0 <? clientCount (run_events srv es t).1)%Z)%nat.
Proof.
  induction es as [|e es IH]; intros t [c Hc] H0 Hlen Hpre; [done|].
  cbn [run_events].
  pose proof (on_event_count srv e t) as Hcount.
  pose proof (on_event_calls srv e t c Hc) as (Hsome & Hstart & Hstop).
  cbn zeta in Hstart, Hstop.
  pose proof (Hpre 1%nat) as H1.
  change (take 1 (e :: es)) with [e] in H1.
  assert (Hrange : - 2 ^ 31 <= clientCount t + net [e] < 2 ^ 31).
  { cbn [length] in Hlen. destruct e; cbn [net] in *; lia. }
  rewrite (i32_small _ Hrange) in Hcount, Hstart, Hstop.
  destruct (on_event srv e t) as [t1 evs1]. cbn [fst snd] in *.
  specialize (IH t1 Hsome).
  destruct (run_events srv es t1) as [t2 evs2] eqn:E2. cbn [fst snd] in *.
  destruct (calls_app evs1 evs2) as [-> ->].
  assert (IH' : (start_calls evs2 + one_if (0 <? clientCount t1)%Z
                 = stop_calls evs2 + one_if (0 <? clientCount t2)%Z)%nat).
  { apply IH.
    - rewrite Hcount. lia.
    - rewrite Hcount. cbn [length] in Hlen. destruct e; cbn [net]; lia.
    - intros k. specialize (Hpre (S k)).
      change (take (S k) (e :: es)) with (e :: take k es) in Hpre.
      rewrite Hcount. destruct e; cbn [net] in *; lia. }
  rewrite Hstart, Hstop. rewrite Hcount in IH'.
  destruct e; cbn [net] in *.
  - destruct (Z.eqb_spec (clientCount t + (1 + 0)) 1);
      destruct (Z.ltb_spec 0 (clientCount t));
      destruct (Z.ltb_spec 0 (clientCount t + (1 + 0))); cbn [one_if] in *; lia.
  - destruct (Z.eqb_spec (clientCount t + (-1 + 0)) 0);
      destruct (Z.ltb_spec 0 (clientCount t));
      destruct (Z.ltb_spec 0 (clientCount t + (-1 + 0))); cbn [one_if] in *; lia.
Qed.

(** X6. Over a sequence of session events in which disconnects never
    outnumber connects, [Start] is called once for every time the count
    leaves 0 and [Stop] once for every time it returns to 0: the calls of
    [Start] are those of [Stop], plus one exactly when a client is still
    connected at the end. *)
Theorem X6_start_stop_balance (srv : IMAPServer) (c : EmailNotificationChecker)
    (es : list ClientEvent) :
  paired es ->
  Z.of_nat (length es) < 2 ^ 31 ->
  let '(t, evs) := run_events srv es (NewClientTracker c) in
  start_calls evs = (stop_calls evs + one_if (0 <? clientCount t)%Z)%nat
  /\ clientCount t = net es.
Proof.
  intros Hp Hlen.
  pose proof (run_events_calls srv es (NewClientTracker c)) as H.
  pose proof (run_events_count srv es (NewClientTracker c)) as Hn.
  destruct (run_events srv es (NewClientTracker c)) as [t evs]. cbn [fst snd] in *.
  cbn [NewClientTracker clientCount checker] in *.
  split.
  - rewrite <- H; [cbn; lia|by eexists|lia|lia|]. intros k. rewrite Z.add_0_l. apply Hp.
  - rewrite Hn by lia. rewrite Z.add_0_l.
    pose proof (net_bound es). pose proof (Hp (length es)) as Hk.
    rewrite firstn_all in Hk. apply i32_small. lia.
Qed.

Lemma run_events_no_checker (srv : IMAPServer) (es : list ClientEvent) :
  forall t, checker t = None ->
    checker (run_events srv es t).1 = None
    /\ Forall (fun ev => exists l, ev = EvLog l) (run_events srv es t).2.
Proof.
  induction es as [|e es IH]; intros t Ht; [by split|].
  cbn [run_events].
  assert (H1 : checker (on_event srv e t).1 = None
               /\ exists l, (on_event srv e t).2 = [EvLog l]).
  { destruct e; cbn [on_event]; unfold OnClientConnected, OnClientDisconnected;
      rewrite Ht.
    - destruct (i32 (clientCount t + 1) =? 1); split; try done; by eexists.
    - destruct (i32 (clientCount t + -1) =? 0); split; try done; by eexists. }
  destruct H1 as [Hc (l & Hl)].
  destruct (on_event srv e t) as [t1 evs1]. cbn [fst snd] in *. subst evs1.
  specialize (IH t1 Hc). destruct (run_events srv es t1) as [t2 evs2].
  cbn [fst snd] in *. destruct IH as [IH1 IH2]. split; [done|].
  constructor; [by eexists|done].
Qed.

(** X7. A tracker whose checker is nil only counts and logs: whatever the
    session events, it calls neither [Start] nor [Stop], nothing is
    broadcast and the checker stays nil. *)
Theorem X7_tracker_without_checker (srv : IMAPServer) (es : list ClientEvent)
    (t : ClientTracker) :
  let '(t', evs) := run_events srv es (SetChecker None t) in
  checker t' = None
  /\ start_calls evs = 0%nat
  /\ stop_calls evs = 0%nat
  /\ broadcasts evs = [].
Proof.
  pose proof (run_events_no_checker srv es (SetChecker None t) eq_refl) as [H1 H2].
  destruct (run_events srv es (SetChecker None t)) as [t' evs]. cbn [fst snd] in *.
  split; [done|].
  induction H2 as [|ev evs (l & ->) _ IH]; [done|].
  destruct IH as (IH1 & IH2 & IH3).
  repeat split; [exact IH1 | exact IH2 | exact IH3].
Qed.

(** ** The poll cycle, continued *)

Lemma foldl_max_ge (l : list Z) : forall a, a <= foldl Z.max a l.
Proof.
  induction l as [|x l IH]; intros a; [done|]. cbn [foldl].
  specialize (IH (Z.max a x)). lia.
Qed.

Lemma foldl_max_elem (l : list Z) (x : Z) : forall a, x ∈ l -> x <= foldl Z.max a l.
Proof.
  induction l as [|y l IH]; intros a Hx; [by apply elem_of_nil in Hx|].
  cbn [foldl]. apply elem_of_cons in Hx as [->|Hx]; [|by apply IH].
  pose proof (foldl_max_ge l (Z.max a y)). lia.
Qed.

Lemma foldl_max_filter (w : Z) (messages : list Msg.t) :
  forall a, w <= a ->
    foldl Z.max a (uids (filter (fun msg => w < u32 (Msg.UID msg)) messages))
    = foldl Z.max a (uids messages).
Proof.
  unfold uids. induction messages as [|msg rest IH]; intros a Ha; [done|].
  destruct (decide (w < u32 (Msg.UID msg))) as [Hgt|Hle].
  - rewrite filter_cons_True by done. rewrite !fmap_cons. cbn [foldl].
    apply IH. lia.
  - rewrite filter_cons_False by done. rewrite fmap_cons. cbn [foldl].
    rewrite Z.max_l by lia. by apply IH.
Qed.

Section CycleProperties.

Variable parse : string -> string * string * list AttachmentInfo.t.

(** The gateway call of a cycle, by cases: it fails, it returns nothing
    because the pre-check found nothing new, or the fetch ran. *)
Lemma GetEmailsSinceUID_cases (srv : IMAPServer) (w : Z) :
  (exists e, GetEmailsSinceUID srv w = Err e)
  \/ (exists mbox, Connect srv = Ok tt /\ srv_select srv = Ok mbox
        /\ u32 (UIDNext mbox) <= u32 (w + 1)
        /\ GetEmailsSinceUID srv w = Ok [])
  \/ (exists mbox messages, Connect srv = Ok tt /\ srv_select srv = Ok mbox
        /\ u32 (w + 1) < u32 (UIDNext mbox)
        /\ srv_fetch_uid_range srv (u32 (w + 1)) 0 = Ok messages
        /\ GetEmailsSinceUID srv w
           = Ok (email_of_msg <$> filter (fun msg => w < u32 (Msg.UID msg)) messages)).
Proof.
  unfold GetEmailsSinceUID.
  destruct (Connect srv) as [[]|e]; [|left; by eexists]. cbn [mbind result_bind].
  destruct (srv_select srv) as [mbox|e]; [|left; by eexists].
  cbn [wrap_err mbind result_bind].
  destruct (u32 (UIDNext mbox) <=? u32 (w + 1)) eqn:E.
  - apply Z.leb_le in E. right; left. by exists mbox.
  - apply Z.leb_gt in E.
    destruct (srv_fetch_uid_range srv (u32 (w + 1)) 0) as [messages|e];
      [|left; by eexists].
    cbn [wrap_err mbind result_bind]. right; right. exists mbox, messages.
    by rewrite emails_since_filter.
Qed.

Lemma cycle_state (srv : IMAPServer) (c : EmailNotificationChecker)
    (messages : list Msg.t) :
  is_Some (broadcaster c) ->
  GetEmailsSinceUID srv (lastUID c)
  = Ok (email_of_msg <$> filter (fun msg => lastUID c < u32 (Msg.UID msg)) messages) ->
  lastUID (checkForNewEmails parse srv c).1 = foldl Z.max (lastUID c) (uids messages).
Proof.
  intros Hb Hget. unfold checkForNewEmails. rewrite Hget.
  pose proof (notify_loop_watermark parse srv
                (filter (fun msg => lastUID c < u32 (Msg.UID msg)) messages) c Hb) as H.
  destruct (notify_loop parse srv _ c) as [c' evs]. cbn [fst] in *.
  rewrite H. by apply foldl_max_filter.
Qed.

(** X9. When the fetch of a cycle runs, for a checker with a broadcaster,
    the watermark ends at the largest of its old value and the UIDs of
    all messages of the response: the ID text that [GetEmailsSinceUID]
    wrote with [FormatUint] is read back by [Sscanf] to the same UID. *)
Theorem X9_watermark_is_max (srv : IMAPServer) (c : EmailNotificationChecker)
    (mbox : SelectData) (messages : list Msg.t) :
  is_Some (broadcaster c) ->
  Connect srv = Ok tt ->
  srv_select srv = Ok mbox ->
  u32 (lastUID c + 1) < u32 (UIDNext mbox) ->
  srv_fetch_uid_range srv (u32 (lastUID c + 1)) 0 = Ok messages ->
  lastUID (checkForNewEmails parse srv c).1 = foldl Z.max (lastUID c) (uids messages)
  /\ forall msg, msg ∈ messages ->
       u32 (Msg.UID msg) <= lastUID (checkForNewEmails parse srv c).1.
Proof.
  intros Hb Hc Hsel Hnext Hf.
  assert (Hw : lastUID (checkForNewEmails parse srv c).1
               = foldl Z.max (lastUID c) (uids messages)).
  { apply cycle_state; [done|].
    unfold GetEmailsSinceUID. rewrite Hc, Hsel. cbn [wrap_err mbind result_bind].
    destruct (u32 (UIDNext mbox) <=? u32 (lastUID c + 1)) eqn:E;
      [apply Z.leb_le in E; lia|].
    rewrite Hf. cbn [wrap_err mbind result_bind]. by rewrite emails_since_filter. }
  split; [done|]. intros msg Hin. rewrite Hw. apply foldl_max_elem.
  unfold uids. apply list_elem_of_fmap. by exists msg.
Qed.

(** X8. No message is notified twice by two cycles in a row: if the
    second fetch returns only UIDs that the first fetch returned, the
    second cycle broadcasts nothing. *)
Theorem X8_no_second_notification (srv : IMAPServer) (c : EmailNotificationChecker) :
  (forall messages messages',
     srv_fetch_uid_range srv (u32 (lastUID c + 1)) 0 = Ok messages ->
     srv_fetch_uid_range srv
       (u32 (lastUID (checkForNewEmails parse srv c).1 + 1)) 0 = Ok messages' ->
     forall x, x ∈ uids messages' -> x ∈ uids messages) ->
  broadcasts
    (checkForNewEmails parse srv (checkForNewEmails parse srv c).1).2 = [].
Proof.
  intros Hsame.
  set (c1 := (checkForNewEmails parse srv c).1) in *.
  assert (Hb1 : broadcaster c1 = broadcaster c).
  { subst c1. unfold checkForNewEmails.
    destruct (GetEmailsSinceUID srv (lastUID c)) as [newEmails|e]; [|done].
    pose proof (notify_loop_broadcaster parse srv newEmails c) as H.
    by destruct (notify_loop parse srv newEmails c). }
  rewrite cycle_broadcasts, Hb1.
  destruct (broadcaster c) as [b|] eqn:Hb; [|done].
  destruct (GetEmailsSinceUID_cases srv (lastUID c))
    as [(e & Hget)|[(mbox & Hc & Hsel & Hnext & Hget)|
                    (mbox & messages & Hc & Hsel & Hnext & Hf & Hget)]].
  - assert (Hc1 : c1 = c) by (subst c1; unfold checkForNewEmails; by rewrite Hget).
    by rewrite Hc1, Hget.
  - assert (Hc1 : c1 = c) by (subst c1; unfold checkForNewEmails; by rewrite Hget).
    by rewrite Hc1, Hget.
  - assert (Hw : lastUID c1 = foldl Z.max (lastUID c) (uids messages)).
    { subst c1. apply cycle_state; [by eexists|done]. }
    destruct (GetEmailsSinceUID_cases srv (lastUID c1))
      as [(e & Hget')|[(mbox' & _ & _ & _ & Hget')|
                       (mbox' & messages' & _ & _ & _ & Hf' & Hget')]];
      rewrite Hget'; try done.
    replace (filter (fun msg => lastUID c1 < u32 (Msg.UID msg)) messages')
      with (@nil Msg.t); [done|].
    symmetry. apply elem_of_nil_inv. intros msg [Hgt Hin]%list_elem_of_filter.
    assert (Hx : u32 (Msg.UID msg) ∈ uids messages).
    { apply (Hsame messages messages' Hf Hf').
      unfold uids. apply list_elem_of_fmap. by exists msg. }
    pose proof (foldl_max_elem _ _ (lastUID c) Hx). lia.
Qed.

(** X10. [GetEmailsSinceUID] fails exactly when dialling, logging in or
    selecting the inbox fails, or when the pre-check on UIDNEXT lets the
    fetch run and the fetch fails; the error names the step.  When the
    pre-check finds UIDNEXT at most [sinceUID + 1] the result is empty
    and nothing is fetched, so a fetch that would fail goes unnoticed. *)
Theorem X10_gateway_failures (srv : IMAPServer) (w : Z) (e : string) :
  (GetEmailsSinceUID srv w = Err e <->
     (exists e0, srv_dial srv = Err e0
                 /\ e = "failed to connect to IMAP server: " +:+ e0)
     \/ (srv_dial srv = Ok tt
         /\ exists e0, srv_login srv = Err e0 /\ e = "failed to login: " +:+ e0)
     \/ (Connect srv = Ok tt
         /\ exists e0, srv_select srv = Err e0
                       /\ e = "failed to select INBOX: " +:+ e0)
     \/ (Connect srv = Ok tt
         /\ exists mbox e0,
              srv_select srv = Ok mbox
              /\ u32 (w + 1) < u32 (UIDNext mbox)
              /\ srv_fetch_uid_range srv (u32 (w + 1)) 0 = Err e0
              /\ e = "failed to fetch messages: " +:+ e0))
  /\ (forall mbox,
        Connect srv = Ok tt -> srv_select srv = Ok mbox ->
        u32 (UIDNext mbox) <= u32 (w + 1) ->
        GetEmailsSinceUID srv w = Ok []).
Proof.
  split.
  - unfold GetEmailsSinceUID, Connect.
    destruct (srv_dial srv) as [[]|e0]; cbn [wrap_err mbind result_bind].
    2:{ split.
        - intros [= <-]. left. by eexists.
        - intros [(e1 & [= <-] & ->)|[[? _]|[[? _]|[? _]]]]; done. }
    destruct (srv_login srv) as [[]|e0]; cbn [wrap_err mbind result_bind].
    2:{ split.
        - intros [= <-]. right; left. split; [done|]. by eexists.
        - intros [(e1 & ? & _)|[(_ & e1 & [= <-] & ->)|[[? _]|[? _]]]]; done. }
    destruct (srv_select srv) as [mbox|e0]; cbn [wrap_err mbind result_bind].
    2:{ split.
        - intros [= <-]. right; right; left. split; [done|]. by eexists.
        - intros [(e1 & ? & _)|[(_ & e1 & ? & _)|
                   [(_ & e1 & [= <-] & ->)|(_ & ? & ? & ? & _)]]]; done. }
    destruct (u32 (UIDNext mbox) <=? u32 (w + 1)) eqn:E.
    { apply Z.leb_le in E. split; [done|].
      intros [(e1 & ? & _)|[(_ & e1 & ? & _)|
                 [(_ & e1 & ? & _)|(_ & mbox' & e1 & [= <-] & Hlt & _)]]];
        try done. lia. }
    destruct (srv_fetch_uid_range srv (u32 (w + 1)) 0) as [messages|e0];
      cbn [wrap_err mbind result_bind].
    { split; [done|].
      intros [(e1 & ? & _)|[(_ & e1 & ? & _)|
                 [(_ & e1 & ? & _)|(_ & mbox' & e1 & _ & _ & ? & _)]]]; done. }
    split.
    + intros [= <-]. right; right; right. split; [done|].
      exists mbox, e0. apply Z.leb_gt in E. done.
    + intros [(e1 & ? & _)|[(_ & e1 & ? & _)|
                 [(_ & e1 & ? & _)|(_ & mbox' & e1 & _ & _ & [= <-] & ->)]]]; done.
  - intros mbox Hc Hsel Hle. unfold GetEmailsSinceUID. rewrite Hc, Hsel.
    cbn [wrap_err mbind result_bind].
    by destruct (Z.leb_spec (u32 (UIDNext mbox)) (u32 (w + 1))); [|lia].
Qed.

End CycleProperties.

(** ** The inbox listing *)

Local Open Scope list_scope.

Lemma insert_middle {A : Type} (l1 l2 : list A) (x y : A) :
  <[length l1 := y]> (l1 ++ x :: l2) = l1 ++ y :: l2.
Proof.
  rewrite insert_app_r_alt by lia. by rewrite Nat.sub_diag.
Qed.

(** Writing [y] over the first and [x] over the last element of the
    middle part. *)
Lemma swap_ends {A : Type} (pre mid post : list A) (x y : A) :
  <[(length pre + S (length mid))%nat := x]>
    (<[length pre := y]> (pre ++ x :: mid ++ y :: post))
  = pre ++ y :: mid ++ x :: post.
Proof.
  rewrite insert_middle, insert_app_r. cbn [insert list_insert].
  f_equal. f_equal. apply insert_middle.
Qed.

Lemma swap_loop_reverse {A : Type} (fuel : nat) :
  forall (mid pre post : list A),
    (length mid <= fuel)%nat ->
    swap_loop fuel (Z.of_nat (length pre))
              (Z.of_nat (length pre + length mid) - 1) (pre ++ mid ++ post)
    = pre ++ reverse mid ++ post.
Proof.
  induction fuel as [|fuel IH]; intros mid pre post Hlen.
  - destruct mid; [done|cbn in Hlen; lia].
  - cbn [swap_loop].
    destruct mid as [|x mid].
    { cbn [length]. rewrite Nat.add_0_r.
      destruct (Z.ltb_spec (Z.of_nat (length pre)) (Z.of_nat (length pre) - 1)); [lia|done]. }
    destruct (decide (mid = [])) as [->|Hne].
    { cbn [length].
      destruct (Z.ltb_spec (Z.of_nat (length pre)) (Z.of_nat (length pre + 1) - 1)); [lia|done]. }
    destruct (exists_last Hne) as (mid' & y & ->).
    cbn [length]. rewrite length_app. cbn [length].
    destruct (Z.ltb_spec (Z.of_nat (length pre))
                (Z.of_nat (length pre + S (length mid' + 1)) - 1)); [|lia].
    rewrite Nat2Z.id.
    replace (Z.to_nat (Z.of_nat (length pre + S (length mid' + 1)) - 1))
      with (length pre + S (length mid'))%nat by lia.
    change ((x :: mid' ++ [y]) ++ post) with (x :: ((mid' ++ [y]) ++ post)).
    rewrite <- (app_assoc mid' [y] post). cbn [app].
    rewrite (list_lookup_middle pre _ x (length pre)) by done.
    assert (Hy : (pre ++ x :: mid' ++ y :: post) !! (length pre + S (length mid'))%nat
                 = Some y).
    { rewrite lookup_app_r by lia.
      replace (length pre + S (length mid') - length pre)%nat with (S (length mid')) by lia.
      cbn. by apply list_lookup_middle. }
    rewrite Hy, swap_ends.
    specialize (IH mid' (pre ++ [y]) (x :: post)).
    rewrite length_app in IH. cbn [length] in IH.
    replace (Z.of_nat (length pre) + 1) with (Z.of_nat (length pre + 1)) by lia.
    replace (Z.of_nat (length pre + S (length mid' + 1)) - 1 - 1)
      with (Z.of_nat (length pre + 1 + length mid') - 1) by lia.
    replace (pre ++ y :: mid' ++ x :: post) with ((pre ++ [y]) ++ mid' ++ x :: post)
      by (by rewrite <- app_assoc).
    rewrite IH by (cbn [length] in Hlen; rewrite length_app in Hlen; cbn in Hlen; lia).
    rewrite reverse_cons, reverse_snoc. rewrite <- !app_assoc. done.
Qed.

Lemma reverse_in_place_reverse {A : Type} (l : list A) : reverse_in_place l = reverse l.
Proof.
  unfold reverse_in_place.
  pose proof (swap_loop_reverse (length l) l [] [] (le_n _)) as H.
  cbn [length app Nat.add Z.of_nat] in H. rewrite !app_nil_r in H. exact H.
Qed.

Lemma u32_small (z : Z) : 0 <= z < 2 ^ 32 -> u32 z = z.
Proof. intros H. unfold u32. by apply Z.mod_small. Qed.

Lemma inbox_emails_filter (unreadOnly : bool) (messages : list Msg.t) :
  inbox_emails unreadOnly messages
  = email_of_msg
      <$> filter (fun msg => unreadOnly && isSeen (Msg.Flags msg) = false) messages.
Proof.
  induction messages as [|msg rest IH]; [done|].
  cbn [inbox_emails]. destruct (unreadOnly && isSeen (Msg.Flags msg)) eqn:E.
  - rewrite filter_cons_False by (by rewrite E). done.
  - rewrite filter_cons_True by done. rewrite fmap_cons. by f_equal.
Qed.

Lemma u32_neg (z : Z) : - 2 ^ 32 <= z < 0 -> u32 z = 2 ^ 32 + z.
Proof.
  intros H. unfold u32. change (2 ^ 32) with 4294967296 in *.
  rewrite <- (Z.mod_add z 1 4294967296) by lia.
  rewrite Z.mod_small; lia.
Qed.

Lemma u32_periodic (z k : Z) : u32 (z + k * 2 ^ 32) = u32 z.
Proof. unfold u32. by rewrite Z.mod_add. Qed.

(** The range of [GetInbox] by cases on the converted limit. *)
Lemma inbox_range_cases (numMessages limit : Z) :
  let n := u32 numMessages in
  let L := u32 limit in
  n <> 0 ->
  (1 <= L -> inbox_range numMessages limit = (Z.max 1 (n - L + 1), n))
  /\ (L = 0 -> n < 2 ^ 32 - 1 -> inbox_range numMessages limit = (n, n + 1))
  /\ (L = 0 -> n = 2 ^ 32 - 1 -> inbox_range numMessages limit = (n, 0)).
Proof.
  cbn zeta. intros H0.
  pose proof (u32_range numMessages) as Hn. pose proof (u32_range limit) as Hl.
  unfold inbox_range, inbox_start, AddRange.
  change (2 ^ 32) with 4294967296 in *.
  split; [|split].
  - intros HL. destruct (Z.ltb_spec (u32 limit) (u32 numMessages)) as [Hlt|Hge].
    + rewrite (u32_small (u32 numMessages - u32 limit + 1))
        by (change (2 ^ 32) with 4294967296; lia).
      destruct (Z.ltb_spec (u32 numMessages) (u32 numMessages - u32 limit + 1)); [lia|].
      destruct (Z.eqb_spec (u32 numMessages - u32 limit + 1) 0); [lia|].
      cbn [andb orb]. f_equal. lia.
    + destruct (Z.ltb_spec (u32 numMessages) 1); [lia|].
      cbn [andb orb Z.eqb]. f_equal. lia.
  - intros HL Hlt. rewrite HL.
    destruct (Z.ltb_spec 0 (u32 numMessages)); [|lia].
    rewrite Z.sub_0_r.
    rewrite (u32_small (u32 numMessages + 1)) by (change (2 ^ 32) with 4294967296; lia).
    destruct (Z.ltb_spec (u32 numMessages) (u32 numMessages + 1)); [|lia].
    by destruct (Z.eqb_spec (u32 numMessages) 0).
  - intros HL Hmax. rewrite HL, Hmax. reflexivity.
Qed.

(** X13. The range [GetInbox] fetches.  Of [limit] only its conversion to
    [uint32] counts, [L = limit mod 2^32]: [L] is [limit] for a limit from
    0 below [2^32] and [2^32 + limit] for a negative one from [-2^32], and
    a multiple of [2^32] added to the limit changes nothing.  An empty
    mailbox gives the empty list whatever a fetch would return.  With
    [n > 0] messages the fetch is for one range, and its failure is the
    failure of [GetInbox].  For [L >= 1] the range is
    [max 1 (n - L + 1) .. n], the last [min L n] messages; so a limit from
    1 below [2^32] gives the last [min limit n], and a negative limit
    above [-2^32] gives the whole mailbox exactly when
    [n <= 2^32 + limit].  For [L = 0] the start [n + 1] lies above the
    stop [n]; [AddRange] exchanges the two and the range fetched is
    [n .. n + 1] (and [n .. 0], up to the last message, when
    [n = 2^32 - 1]). *)
Theorem X13_inbox_range (ms : MailStore) (limit : Z) (unreadOnly : bool)
    (mbox : SelectData) :
  Connect (ms_server ms) = Ok tt ->
  srv_select (ms_server ms) = Ok mbox ->
  let n := u32 (NumMessages mbox) in
  let L := u32 limit in
  let r := inbox_range (NumMessages mbox) limit in
  (n = 0 -> GetInbox ms limit unreadOnly = Ok [])
  /\ (n <> 0 ->
      GetInbox ms limit unreadOnly
      = match ms_fetch_seq_range ms r.1 r.2 with
        | Ok messages => Ok (reverse (inbox_emails unreadOnly messages))
        | Err e => Err ("failed to fetch messages: " +:+ e)
        end)
  /\ (n <> 0 -> 1 <= L ->
      r = (Z.max 1 (n - L + 1), n) /\ r.2 - r.1 + 1 = Z.min L n)
  /\ (n <> 0 -> L = 0 -> n < 2 ^ 32 - 1 -> r = (n, n + 1))
  /\ (L = 0 -> n = 2 ^ 32 - 1 -> r = (n, 0))
  /\ (0 <= limit < 2 ^ 32 -> L = limit)
  /\ (- 2 ^ 32 <= limit < 0 -> L = 2 ^ 32 + limit)
  /\ (forall k, inbox_range (NumMessages mbox) (limit + k * 2 ^ 32) = r)
  /\ (n <> 0 -> 1 <= limit < 2 ^ 32 ->
      r = (Z.max 1 (n - limit + 1), n) /\ r.2 - r.1 + 1 = Z.min limit n)
  /\ (n <> 0 -> - 2 ^ 32 < limit < 0 -> r = (1, n) <-> n <= 2 ^ 32 + limit).
Proof.
  intros Hc Hsel. cbn zeta.
  pose proof (u32_range (NumMessages mbox)) as Hn.
  pose proof (u32_range limit) as Hl.
  split; [|split; [|split; [|split; [|split; [|split; [|split; [|split; [|split]]]]]]]].
  - intros H0. unfold GetInbox. rewrite Hc, Hsel. cbn [wrap_err mbind result_bind].
    by rewrite H0.
  - intros H0. unfold GetInbox. rewrite Hc, Hsel. cbn [wrap_err mbind result_bind].
    destruct (Z.eqb_spec (u32 (NumMessages mbox)) 0); [done|].
    destruct (inbox_range (NumMessages mbox) limit) as [lo hi]. cbn [fst snd].
    destruct (ms_fetch_seq_range ms lo hi); cbn [wrap_err mbind result_bind]; [|done].
    by rewrite reverse_in_place_reverse.
  - intros H0 HL. destruct (inbox_range_cases (NumMessages mbox) limit H0) as (H & _).
    rewrite (H HL). cbn [fst snd]. split; [done|lia].
  - intros H0 HL Hlt.
    destruct (inbox_range_cases (NumMessages mbox) limit H0) as (_ & H & _). by apply H.
  - intros HL Hmax.
    destruct (inbox_range_cases (NumMessages mbox) limit) as (_ & _ & H);
      [change (2 ^ 32) with 4294967296 in Hmax; lia|]. by apply H.
  - apply u32_small.
  - apply u32_neg.
  - intros k. unfold inbox_range, inbox_start. by rewrite u32_periodic.
  - intros H0 Hlim.
    destruct (inbox_range_cases (NumMessages mbox) limit H0) as (H & _).
    assert (HL : u32 limit = limit) by (apply u32_small; lia).
    rewrite H by lia. rewrite HL. cbn [fst snd]. split; [done|lia].
  - intros H0 Hlim.
    destruct (inbox_range_cases (NumMessages mbox) limit H0) as (H & _).
    assert (HL : u32 limit = 2 ^ 32 + limit) by (apply u32_neg; lia).
    rewrite H by lia. rewrite HL. change (2 ^ 32) with 4294967296 in *.
    split; [intros [= Hmax]; lia|intros Hle; f_equal; lia].
Qed.

(** X14. What [GetInbox] returns when its fetch succeeds: the emails of
    the fetched messages in the opposite order of the response (the swap
    loop reverses the slice), so newest first for a response in sequence
    order, and with [unreadOnly] none of them read and every unread
    message of the response among them. *)
Theorem X14_inbox_result (ms : MailStore) (limit : Z) (unreadOnly : bool)
    (mbox : SelectData) (messages : list Msg.t) :
  Connect (ms_server ms) = Ok tt ->
  srv_select (ms_server ms) = Ok mbox ->
  u32 (NumMessages mbox) <> 0 ->
  ms_fetch_seq_range ms (inbox_range (NumMessages mbox) limit).1
                     (inbox_range (NumMessages mbox) limit).2 = Ok messages ->
  exists emails,
    GetInbox ms limit unreadOnly = Ok emails
    /\ emails
       = reverse (email_of_msg
                    <$> filter (fun msg => unreadOnly && isSeen (Msg.Flags msg) = false)
                          messages)
    /\ (unreadOnly = false -> emails = reverse (email_of_msg <$> messages))
    /\ (unreadOnly = true -> Forall (fun e => Email.Read e = false) emails)
    /\ (forall msg, msg ∈ messages -> isSeen (Msg.Flags msg) = false ->
          email_of_msg msg ∈ emails).
Proof.
  intros Hc Hsel H0 Hf.
  exists (reverse (email_of_msg
                     <$> filter (fun msg => unreadOnly && isSeen (Msg.Flags msg) = false)
                           messages)).
  split.
  { unfold GetInbox. rewrite Hc, Hsel. cbn [wrap_err mbind result_bind].
    destruct (Z.eqb_spec (u32 (NumMessages mbox)) 0); [done|].
    destruct (inbox_range (NumMessages mbox) limit) as [lo hi]. cbn [fst snd] in Hf.
    rewrite Hf. cbn [wrap_err mbind result_bind].
    by rewrite reverse_in_place_reverse, inbox_emails_filter. }
  split; [done|]. split; [|split].
  - intros ->. f_equal. f_equal. clear Hf.
    induction messages as [|m rest IH]; [done|].
    rewrite filter_cons_True by done. by f_equal.
  - intros ->. apply Forall_reverse, Forall_fmap, Forall_forall.
    intros msg [Hseen _]%list_elem_of_filter. cbn [andb] in Hseen. exact Hseen.
  - intros msg Hin Hseen. apply elem_of_reverse, list_elem_of_fmap.
    exists msg. split; [done|]. apply list_elem_of_filter. split; [|done].
    rewrite Hseen. by destruct unreadOnly.
Qed.

(** ** Email IDs *)

Lemma parse_dec_all_digits (s : string) :
  forall a, is_Some (parse_dec s a) <-> all_digits s = true.
Proof.
  induction s as [|b s IH]; intros a; cbn [parse_dec all_digits].
  - split; [done|by eexists].
  - destruct (is_digit b); cbn [andb]; [apply IH|].
    split; [by intros [? ?]|done].
Qed.

Lemma ParseUint32_Ok (s : string) (v : Z) :
  ParseUint32 s = Ok v <-> s <> "" /\ parse_dec s 0 = Some v /\ v < 2 ^ 32.
Proof.
  unfold ParseUint32. destruct s as [|b s]; [split; [done|by intros [? _]]|].
  rewrite parse_uint_loop_Ok by (change (2 ^ 32) with 4294967296; lia).
  split; [by intros [? ?]|by intros (_ & ? & ?)].
Qed.

Lemma ParseUint32_Err (s : string) :
  (exists e, ParseUint32 s = Err e)
  <-> s = "" \/ all_digits s = false
      \/ exists v, parse_dec s 0 = Some v /\ 2 ^ 32 <= v.
Proof.
  pose proof (parse_dec_all_digits s 0) as Hd.
  destruct (ParseUint32 s) as [v|e] eqn:E.
  - apply ParseUint32_Ok in E as (Hne & Hp & Hv).
    split; [by intros [? ?]|].
    intros [?|[Hall|(v' & Hp' & ?)]]; [done| |].
    + assert (all_digits s = true) by (apply Hd; by eexists). congruence.
    + rewrite Hp in Hp'. injection Hp' as <-. lia.
  - split; [|by eexists]. intros _.
    destruct s as [|b s]; [by left|]. right.
    destruct (parse_dec (String b s) 0) as [v|] eqn:Hp.
    + right. exists v. split; [done|].
      destruct (Z.lt_ge_cases v (2 ^ 32)) as [Hlt|Hge]; [|done].
      assert (ParseUint32 (String b s) = Ok v) by (by apply ParseUint32_Ok).
      congruence.
    + left. destruct (all_digits (String b s)) eqn:Ha; [|done].
      by destruct (proj2 Hd eq_refl).
Qed.

Section GatewayProperties.

Variable parse : string -> string * string * list AttachmentInfo.t.

(** X11. The ID handed out in a listing leads back to the same message:
    it parses, with [ParseUint] and with [Sscanf], to the UID it was
    written from, so [GetEmailContents] and [MarkAsRead] address exactly
    that UID, and the detail returned carries the ID it was asked for and
    the sender, subject, date and read flag a listing shows for the
    fetched message. *)
Theorem X11_listed_id_round_trip (ms : MailStore) (msg : Msg.t) (mbox : SelectData) :
  Connect (ms_server ms) = Ok tt ->
  srv_select (ms_server ms) = Ok mbox ->
  let id := Email.ID (email_of_msg msg) in
  let uid := u32 (Msg.UID msg) in
  ParseUint32 id = Ok uid
  /\ Sscanf_uint32 id = Some uid
  /\ MarkAsRead ms id = wrap_err "failed to mark email as read" (ms_store_seen ms uid)
  /\ match srv_fetch_uid_body (ms_server ms) uid with
     | Err e =>
         GetEmailContents parse (ms_server ms) id
         = Err ("failed to fetch message: " +:+ e)
     | Ok [] => GetEmailContents parse (ms_server ms) id = Err "email not found"
     | Ok (m :: _) =>
         exists d,
           GetEmailContents parse (ms_server ms) id = Ok d
           /\ EmailDetail.ID d = id
           /\ EmailDetail.From d = Email.From (email_of_msg m)
           /\ EmailDetail.Subject d = Email.Subject (email_of_msg m)
           /\ EmailDetail.Date d = Email.Date (email_of_msg m)
           /\ EmailDetail.Read d = Email.Read (email_of_msg m)
     end.
Proof.
  intros Hc Hsel. cbn zeta. cbn [email_of_msg Email.ID].
  pose proof (ParseUint32_FormatUint _ (u32_range (Msg.UID msg))) as Hp.
  split; [done|]. split; [apply Sscanf_FormatUint, u32_range|]. split.
  - unfold MarkAsRead. rewrite Hp, Hc, Hsel. done.
  - unfold GetEmailContents. rewrite Hp, Hc, Hsel. cbn [wrap_err mbind result_bind].
    destruct (srv_fetch_uid_body (ms_server ms) (u32 (Msg.UID msg))) as [[|m rest]|e];
      cbn [wrap_err mbind result_bind]; try done.
    destruct (match match Msg.FindBodySection (Msg.BodySection m) with
                    | Some data => Some data
                    | None => match Msg.BodySection m with
                              | [] => None
                              | s :: _ => BodySection.Bytes s
                              end
                    end with
              | Some raw => parse raw
              | None => ("", "text/plain", [])
              end) as [[body ct] atts].
    eexists. split; [done|]. done.
Qed.

(** X12. An ID is accepted exactly when it is a non-empty run of decimal
    digits whose value fits 32 bits.  Any other ID is refused by
    [GetEmailContents] and [MarkAsRead] with an "invalid email ID" error
    that does not depend on the mailbox: the server is not contacted. *)
Theorem X12_invalid_id_rejected (s : string) :
  ((exists e, ParseUint32 s = Err e)
   <-> s = "" \/ all_digits s = false
       \/ exists v, parse_dec s 0 = Some v /\ 2 ^ 32 <= v)
  /\ ((exists e, ParseUint32 s = Err e) ->
      exists e, forall (ms : MailStore),
        GetEmailContents parse (ms_server ms) s = Err ("invalid email ID: " +:+ e)
        /\ MarkAsRead ms s = Err ("invalid email ID: " +:+ e)).
Proof.
  split; [apply ParseUint32_Err|].
  intros [e He]. exists e. intros ms.
  unfold GetEmailContents, MarkAsRead. rewrite He. done.
Qed.

(** ** The tool handlers *)

(** X18. The tool [mark_email_read] answers with its success text only
    when the request carries a string [email_id] that parses as a UID,
    the connection, login and select succeed and the store of the flag on
    that UID succeeds; in every other case the answer is an error result.
    Without a non-empty string [email_id] the mailbox is not consulted. *)
Theorem X18_mark_email_read (ms : MailStore) (args : gmap string Arg) :
  (forall text,
     mark_email_read ms args = ToolResultText text <->
     exists id uid mbox,
       args !! "email_id" = Some (ArgString id)
       /\ ParseUint32 id = Ok uid
       /\ Connect (ms_server ms) = Ok tt
       /\ srv_select (ms_server ms) = Ok mbox
       /\ ms_store_seen ms uid = Ok tt
       /\ text = "Email " +:+ id +:+ " marked as read")
  /\ (GetString args "email_id" "" = "" ->
      forall ms', mark_email_read ms' args
                  = ToolResultError "Missing required parameter: email_id").
Proof.
  split.
  - intros text. unfold mark_email_read, GetString.
    destruct (args !! "email_id") as [[id|]|] eqn:Ha; cbn [bool_decide];
      try (split; [done|by intros (? & ? & ? & ? & _)]).
    destruct (decide (id = "")) as [->|Hne].
    { cbn. split; [done|]. intros (? & ? & ? & [= <-] & ? & _). done. }
    rewrite bool_decide_false by done.
    unfold MarkAsRead.
    destruct (ParseUint32 id) as [uid|e] eqn:Hp; cbn [wrap_err mbind result_bind].
    2:{ split; [done|]. intros (? & ? & ? & [= <-] & Hp' & _). congruence. }
    destruct (Connect (ms_server ms)) as [[]|e] eqn:Hc; cbn [mbind result_bind].
    2:{ split; [done|]. by intros (? & ? & ? & _ & _ & ? & _). }
    destruct (srv_select (ms_server ms)) as [mbox|e] eqn:Hs;
      cbn [wrap_err mbind result_bind].
    2:{ split; [done|]. by intros (? & ? & ? & _ & _ & _ & ? & _). }
    destruct (ms_store_seen ms uid) as [[]|e] eqn:Hst; cbn [wrap_err].
    + split.
      * intros [= <-]. by exists id, uid, mbox.
      * intros (? & ? & ? & [= <-] & Hp' & _ & _ & _ & ->). done.
    + split; [done|]. intros (? & ? & ? & [= <-] & Hp' & _ & _ & Hst' & _).
      rewrite Hp in Hp'. injection Hp' as <-. congruence.
  - intros Hg ms'. unfold mark_email_read. rewrite Hg. done.
Qed.

(** X19. The tool [get_email_contents] never answers with a text result
    unless the message was really fetched: a text result means that the
    request carried a string [email_id] that parses as a UID, that the
    fetch for that UID returned a message and that this message was
    serialized.  Without a non-empty string [email_id] the answer is the
    missing-parameter error, whatever the mailbox. *)
Theorem X19_get_email_contents (marshal : EmailDetail.t -> result string)
    (srv : IMAPServer) (args : gmap string Arg) :
  (forall text,
     get_email_contents parse marshal srv args = ToolResultText text ->
     exists id uid m rest d,
       args !! "email_id" = Some (ArgString id)
       /\ ParseUint32 id = Ok uid
       /\ srv_fetch_uid_body srv uid = Ok (m :: rest)
       /\ GetEmailContents parse srv id = Ok d
       /\ EmailDetail.ID d = id
       /\ marshal d = Ok text)
  /\ (GetString args "email_id" "" = "" ->
      forall marshal' srv',
        get_email_contents parse marshal' srv' args
        = ToolResultError "Missing required parameter: email_id").
Proof.
  split.
  - intros text. unfold get_email_contents, GetString.
    destruct (args !! "email_id") as [[id|]|] eqn:Ha; cbn [bool_decide]; try done.
    destruct (decide (id = "")) as [->|Hne]; [done|].
    rewrite bool_decide_false by done.
    destruct (GetEmailContents parse srv id) as [d|e] eqn:Hg; [|done].
    destruct (marshal d) as [t|e] eqn:Hm; [|done]. intros [= <-].
    pose proof Hg as Hg0. unfold GetEmailContents in Hg.
    destruct (ParseUint32 id) as [uid|e] eqn:Hp; [|done].
    cbn [wrap_err mbind result_bind] in Hg.
    destruct (Connect srv) as [[]|e]; [|done]. cbn [mbind result_bind] in Hg.
    destruct (srv_select srv) as [mbox|e]; [|done].
    cbn [wrap_err mbind result_bind] in Hg.
    destruct (srv_fetch_uid_body srv uid) as [[|m rest]|e] eqn:Hf; try done.
    cbn [wrap_err mbind result_bind] in Hg.
    exists id, uid, m, rest, d. repeat split; try done.
    destruct (match match Msg.FindBodySection (Msg.BodySection m) with
                    | Some data => Some data
                    | None => match Msg.BodySection m with
                              | [] => None
                              | s :: _ => BodySection.Bytes s
                              end
                    end with
              | Some raw => parse raw
              | None => ("", "text/plain", [])
              end) as [[body ct] atts].
    by injection Hg as <-.
  - intros Hg marshal' srv'. unfold get_email_contents. rewrite Hg. done.
Qed.

End GatewayProperties.

(** ** The shape of a preview *)

Lemma hi_byte_no_space (b : Z) :
  128 <= b -> negb (((9 <=? b) && (b <=? 13)) || (b =? 32)) = true.
Proof.
  intros H. destruct (Z.leb_spec b 13); [lia|]. destruct (Z.eqb_spec b 32); [lia|].
  by rewrite andb_false_r.
Qed.

Lemma first_Illegal (b : Z) : first b = Illegal -> 128 <= b.
Proof. unfold first. destruct (Z.ltb_spec b 128); [done|]. lia. Qed.

Lemma is_cont_hi (b : Z) : is_cont b = true -> 128 <= b.
Proof. unfold is_cont. intros [H _]%andb_true_iff. by apply Z.leb_le in H. Qed.

Lemma substring_0_0 (s : string) : substring 0 0 s = "".
Proof. by destruct s. Qed.

Ltac clean_step :=
  cbn [fst snd substring no_ascii_space]; rewrite ?substring_0_0;
  cbn [no_ascii_space].

Lemma decode_clean (s : string) :
  s <> "" ->
  rune_clean (Rune (DecodeRuneInString s).1 (substring 0 (DecodeRuneInString s).2 s)).
Proof.
  destruct s as [|a0 r0]; [done|]. intros _. unfold rune_clean.
  cbn [rune_val rune_bytes DecodeRuneInString].
  destruct (first (byte a0)) as [| |sz lo hi] eqn:Hf.
  - clean_step. intros Hsp.
    pose proof (first_lead_byte (byte a0)) as [Hs _]; [by rewrite Hf|].
    specialize (Hs Hf). unfold IsSpace in Hsp.
    destruct (Z.leb_spec (byte a0) 255); [|lia].
    apply orb_false_iff in Hsp as [Hsp _]. apply orb_false_iff in Hsp as [Hsp _].
    by rewrite Hsp.
  - clean_step. intros _.
    by rewrite hi_byte_no_space by (by apply first_Illegal).
  - pose proof (first_lead_byte (byte a0)) as [_ Hl]; [by rewrite Hf|].
    specialize (Hl _ _ _ Hf).
    apply first_Lead in Hf as (Hlo & Hhi & Hsz).
    assert (H0 : negb (((9 <=? byte a0) && (byte a0 <=? 13)) || (byte a0 =? 32)) = true)
      by (apply hi_byte_no_space; lia).
    intros _. cbn [String.length].
    destruct (S (String.length r0) <? sz)%nat;
      [clean_step; by rewrite H0|].
    destruct r0 as [|a1 r1];
      [clean_step; by rewrite H0|].
    destruct ((byte a1 <? lo) || (hi <? byte a1)) eqn:E1;
      [clean_step; by rewrite H0|].
    apply orb_false_iff in E1 as [E1 _]. apply Z.ltb_ge in E1.
    assert (H1 : negb (((9 <=? byte a1) && (byte a1 <=? 13)) || (byte a1 =? 32)) = true)
      by (apply hi_byte_no_space; lia).
    destruct (sz <=? 2)%nat;
      [clean_step; by rewrite H0, H1|].
    destruct r1 as [|a2 r2];
      [clean_step; by rewrite H0|].
    destruct (is_cont (byte a2)) eqn:E2; cbn [negb];
      [|clean_step; by rewrite H0].
    assert (H2 : negb (((9 <=? byte a2) && (byte a2 <=? 13)) || (byte a2 =? 32)) = true)
      by (apply hi_byte_no_space; by apply is_cont_hi).
    destruct (sz <=? 3)%nat;
      [clean_step; by rewrite H0, H1, H2|].
    destruct r2 as [|a3 r3];
      [clean_step; by rewrite H0|].
    destruct (is_cont (byte a3)) eqn:E3; cbn [negb];
      [|clean_step; by rewrite H0].
    assert (H3 : negb (((9 <=? byte a3) && (byte a3 <=? 13)) || (byte a3 =? 32)) = true)
      by (apply hi_byte_no_space; by apply is_cont_hi).
    clean_step. by rewrite H0, H1, H2, H3.
Qed.

Lemma runes_clean (s : string) : Forall rune_clean (runes s).
Proof.
  induction s as [|s Hne IH] using rune_ind; [constructor|].
  rewrite runes_unfold by done. constructor; [by apply decode_clean|done].
Qed.

Lemma no_ascii_space_app (s1 s2 : string) :
  no_ascii_space (s1 +:+ s2) = no_ascii_space s1 && no_ascii_space s2.
Proof.
  induction s1 as [|a s1 IH]; [done|]. rewrite app_cons_s.
  cbn [no_ascii_space]. by rewrite IH, andb_assoc.
Qed.

Lemma fields_loop_clean (rs : list rune) :
  Forall rune_clean rs ->
  forall cur, no_ascii_space cur = true ->
    Forall (fun f => no_ascii_space f = true) (fields_loop cur rs).
Proof.
  induction 1 as [|r rs Hr _ IH]; intros cur Hcur.
  - cbn. destruct cur; by repeat constructor.
  - cbn [fields_loop]. destruct (IsSpace (rune_val r)) eqn:E.
    + destruct cur; [by apply IH|]. constructor; [done|by apply IH].
    + apply IH. rewrite no_ascii_space_app, Hcur. by apply Hr.
Qed.

Lemma single_line_app (s1 s2 : string) :
  single_line (s1 +:+ s2) = single_line s1 && single_line s2.
Proof.
  induction s1 as [|a s1 IH]; [done|]. rewrite app_cons_s.
  cbn [single_line]. by rewrite IH, andb_assoc.
Qed.

Lemma no_ascii_space_single_line (s : string) :
  no_ascii_space s = true -> single_line s = true.
Proof.
  induction s as [|a s IH]; [done|]. cbn [no_ascii_space single_line].
  intros [H1 H2]%andb_true_iff. rewrite IH by done.
  apply negb_true_iff, orb_false_iff in H1 as [-> _]. done.
Qed.

Lemma single_line_Join (fs : list string) :
  Forall (fun f => no_ascii_space f = true) fs -> single_line (Join fs " ") = true.
Proof.
  induction 1 as [|f fs Hf _ IH]; [done|]. rewrite Join_cons.
  destruct fs; [by apply no_ascii_space_single_line|].
  rewrite !single_line_app, IH. by rewrite no_ascii_space_single_line.
Qed.

Lemma single_line_substring (n : nat) :
  forall s, single_line s = true -> single_line (substring 0 n s) = true.
Proof.
  induction n as [|n IH]; intros [|a s] H; try done.
  cbn [substring single_line] in *. apply andb_true_iff in H as [-> H].
  by apply IH.
Qed.

(** X16. The white-space normalization of [GetEmailPreview] yields the
    fields of the body joined by single spaces (trimming first changes
    nothing), and every field is non-empty and free of ASCII white space:
    the result never starts or ends with a space and never has two in a
    row. *)
Theorem X16_normalized_shape (body : string) :
  Join (Fields (TrimSpace body)) " " = Join (Fields body) " "
  /\ Fields (TrimSpace body) = Fields body
  /\ Forall (fun f => f <> "" /\ no_ascii_space f = true) (Fields body).
Proof.
  rewrite Fields_TrimSpace. split; [done|]. split; [done|].
  unfold Fields. apply Forall_and. split.
  - apply fields_loop_nonempty.
  - apply fields_loop_clean; [apply runes_clean|done].
Qed.

Lemma normalize_space_single_line (body : string) :
  single_line (normalize_space body) = true.
Proof.
  unfold normalize_space. rewrite Fields_TrimSpace. apply single_line_Join.
  apply fields_loop_clean; [apply runes_clean|done].
Qed.

Lemma single_line_cut (s : string) (n : nat) :
  single_line s = true -> single_line (substring 0 n s +:+ "...") = true.
Proof.
  intros H. by rewrite single_line_app, single_line_substring.
Qed.

(** X15. A preview is a single line: whatever the body and the maximum
    length, the text [GetEmailPreview] returns contains no tab, line
    feed, vertical tab, form feed or carriage return. *)
Theorem X15_preview_single_line (body : string) (maxLen : Z) (p : string) :
  GetEmailPreview body maxLen = Some p -> single_line p = true.
Proof.
  pose proof (normalize_space_single_line body) as Hn.
  unfold GetEmailPreview. fold (normalize_space body).
  destruct (len (normalize_space body) <=? maxLen); [by intros [= <-]|].
  unfold slice_to.
  destruct ((0 <=? maxLen) && (maxLen <=? len (normalize_space body))); [|done].
  cbn [mbind option_bind]. intros [= <-]. by apply single_line_cut.
Qed.

Lemma GetEmailPreview_len (body : string) (maxLen : Z) (p : string) :
  0 <= maxLen -> GetEmailPreview body maxLen = Some p -> len p <= maxLen + 3.
Proof.
  intros Hmax. rewrite GetEmailPreview_eq by done. intros [= <-].
  destruct (Z.leb_spec (len (normalize_space body)) maxLen); [lia|].
  rewrite len_app, len_substring_0 by lia. done.
Qed.

(** X20. The preview of every notification of a poll cycle is one line of
    at most 103 bytes: the first 100 bytes of the normalized body and the
    three dots, or less. *)
Theorem X20_notified_preview_bounded
    (parse : string -> string * string * list AttachmentInfo.t)
    (srv : IMAPServer) (c : EmailNotificationChecker)
    (method : string) (params : gmap string any) :
  EvBroadcast method params ∈ (checkForNewEmails parse srv c).2 ->
  exists p, string_field "preview" params = Some p
            /\ len p <= 103 /\ single_line p = true.
Proof.
  intros (newEmails & email & _ & _ & _ & ->)%checkForNewEmails_broadcasts.
  exists (preview_of parse srv email). split; [apply params_fields|].
  unfold preview_of.
  destruct (GetEmailContents parse srv (Email.ID email)) as [d|e]; [|done].
  destruct (GetEmailPreview (EmailDetail.Body d) 100) as [p|] eqn:Hp; [|done].
  cbn [default from_option]. unfold id. split.
  - apply (GetEmailPreview_len _ 100) in Hp; lia.
  - rewrite GetEmailPreview_eq in Hp by lia. injection Hp as <-.
    pose proof (normalize_space_single_line (EmailDetail.Body d)) as Hn.
    destruct (len (normalize_space (EmailDetail.Body d)) <=? 100); [done|].
    by apply single_line_cut.
Qed.

(** ** The configuration *)


(** ** Start-up and the first cycle *)

(** X21. Mail that is already there at start-up is not notified: after a
    [Start] whose query returned the UID [uid], a cycle against a mailbox
    whose fetch returns no UID above [uid] broadcasts nothing and leaves
    the watermark at [uid]. *)
Theorem X21_existing_mail_is_silent
    (parse : string -> string * string * list AttachmentInfo.t)
    (srv0 srv : IMAPServer) (c : EmailNotificationChecker) (uid : Z) :
  is_Some (broadcaster c) ->
  running c = false ->
  GetLatestUID srv0 = Ok uid ->
  (forall messages msg,
     srv_fetch_uid_range srv (u32 (uid + 1)) 0 = Ok messages ->
     msg ∈ messages -> u32 (Msg.UID msg) <= uid) ->
  let c1 := (Start srv0 c).1 in
  lastUID c1 = uid
  /\ broadcasts (checkForNewEmails parse srv c1).2 = []
  /\ lastUID (checkForNewEmails parse srv c1).1 = uid.
Proof.
  intros [b Hb] Hrun Hu Hold. cbn zeta.
  assert (H1 : lastUID (Start srv0 c).1 = uid
               /\ broadcaster (Start srv0 c).1 = Some b).
  { unfold Start. rewrite Hb, Hrun, Hu.
    cbn [config set_lastUID set_cancelFunc set_running].
    by destruct (0 <? check_interval (config c)). }
  destruct H1 as [Hw Hb1]. set (c1 := (Start srv0 c).1) in *.
  split; [done|].
  assert (Hget : exists e, GetEmailsSinceUID srv (lastUID c1) = Err e
                 \/ GetEmailsSinceUID srv (lastUID c1) = Ok []).
  { destruct (GetEmailsSinceUID_cases srv (lastUID c1))
      as [(e & Hget)|[(mbox & _ & _ & _ & Hget)|
                      (mbox & messages & _ & _ & _ & Hf & Hget)]].
    - exists e. by left.
    - exists "". by right.
    - exists "". right. rewrite Hget.
      replace (filter (fun msg => lastUID c1 < u32 (Msg.UID msg)) messages)
        with (@nil Msg.t); [done|].
      symmetry. apply elem_of_nil_inv. intros msg [Hgt Hin]%list_elem_of_filter.
      rewrite Hw in Hf, Hgt. pose proof (Hold messages msg Hf Hin). lia. }
  destruct Hget as (e & [Hget|Hget]).
  - rewrite cycle_broadcasts, Hb1, Hget. unfold checkForNewEmails.
    by rewrite Hget.
  - rewrite cycle_broadcasts, Hb1, Hget. unfold checkForNewEmails.
    by rewrite Hget.
Qed.

(** ** The further properties at concrete inputs *)

Lemma X2_witness :
  Start unreachable (Start inbox_12 fresh_checker).1
  = ((Start inbox_12 fresh_checker).1, [EvStartCalled]).
Proof.
  apply (X2_Start_twice inbox_12 unreachable fresh_checker); [by eexists|reflexivity].
Defined.

Lemma X3_witness :
  running (stop_and_exit (checker_at 13)) = false
  /\ loop (stop_and_exit (checker_at 13)) = None
  /\ lastUID (stop_and_exit (checker_at 13)) = 13.
Proof.
  destruct (X3_stop_then_exit (checker_at 13) (mkGoroutine 30000000000 false)
              inbox_12 raw_parse) as (_ & H1 & H2 & H3 & _);
    [reflexivity|reflexivity|].
  split; [exact H1|]. split; [exact H2|]. rewrite H3. reflexivity.
Defined.

Lemma X4_witness :
  lastUID (checker_at 15) = 15
  /\ lastUID (Start inbox_12 (stop_and_exit (checker_at 15))).1 = 12.
Proof.
  split; [reflexivity|].
  apply (X4_restart_rederives_watermark inbox_12 (checker_at 15)
           (mkGoroutine 30000000000 false) 12).
  - by eexists.
  - reflexivity.
  - reflexivity.
  - vm_compute; reflexivity.
Defined.

Lemma X5_witness :
  clientCount
    (run_events inbox_12 [ClientConnects; ClientDisconnects; ClientConnects]
       (NewClientTracker fresh_checker)).1 = 1
  /\ start_calls
       (run_events inbox_12 [ClientConnects; ClientDisconnects; ClientConnects]
          (NewClientTracker fresh_checker)).2 = 2%nat.
Proof.
  pose proof (X5_quick_reconnect inbox_12 fresh_checker) as H.
  destruct (run_events inbox_12 [ClientConnects; ClientDisconnects; ClientConnects]
              (NewClientTracker fresh_checker)) as [t evs].
  destruct H as (H1 & H2 & _);
    [by eexists|reflexivity|vm_compute; reflexivity|].
  split; [exact H1|exact H2].
Defined.

Lemma X6_witness :
  start_calls
    (run_events inbox_12 [ClientConnects; ClientConnects; ClientDisconnects]
       (NewClientTracker fresh_checker)).2
  = (stop_calls
       (run_events inbox_12 [ClientConnects; ClientConnects; ClientDisconnects]
          (NewClientTracker fresh_checker)).2 + 1)%nat.
Proof.
  pose proof (X6_start_stop_balance inbox_12 fresh_checker
                [ClientConnects; ClientConnects; ClientDisconnects]) as H.
  destruct (run_events inbox_12 [ClientConnects; ClientConnects; ClientDisconnects]
              (NewClientTracker fresh_checker)) as [t evs].
  destruct H as [H1 H2].
  - intros [|[|[|[|j]]]]; vm_compute; discriminate.
  - vm_compute; reflexivity.
  - cbn [snd]. rewrite H1, H2. reflexivity.
Defined.

Lemma X8_witness :
  broadcasts
    (checkForNewEmails raw_parse (mailbox [13; 14; 15] 16 true)
       (checkForNewEmails raw_parse (mailbox [13; 14; 15] 16 true) (checker_at 13)).1).2
  = [].
Proof.
  apply (X8_no_second_notification raw_parse (mailbox [13; 14; 15] 16 true)
           (checker_at 13)).
  intros messages messages' H1 H2 x Hx.
  cbn [mailbox srv_fetch_uid_range] in H1, H2.
  injection H1 as <-. injection H2 as <-. exact Hx.
Defined.

Lemma X9_witness :
  lastUID (checkForNewEmails raw_parse (mailbox [13; 14; 15] 16 true)
             (checker_at 13)).1 = 15.
Proof.
  destruct (X9_watermark_is_max raw_parse (mailbox [13; 14; 15] 16 true)
              (checker_at 13) (mkSelectData 3 16)
              [msg_of 13; msg_of 14; msg_of 15]) as [H _].
  - by eexists.
  - reflexivity.
  - reflexivity.
  - vm_compute; reflexivity.
  - reflexivity.
  - rewrite H. vm_compute; reflexivity.
Defined.

Lemma X10_witness :
  GetEmailsSinceUID unreachable 13 = Err "failed to connect to IMAP server: timeout"
  /\ GetEmailsSinceUID (mailbox [13] 14 true) 13 = Ok [].
Proof.
  destruct (X10_gateway_failures unreachable 13
              "failed to connect to IMAP server: timeout") as [[_ H] _].
  destruct (X10_gateway_failures (mailbox [13] 14 true) 13 "") as [_ H'].
  split.
  - apply H. left. exists "timeout". split; reflexivity.
  - apply (H' (mkSelectData 1 14)); [reflexivity|reflexivity|vm_compute; discriminate].
Defined.

Lemma X11_witness :
  ParseUint32 (Email.ID (email_of_msg (bare_msg 11 []))) = Ok 11
  /\ MarkAsRead store_12 (Email.ID (email_of_msg (bare_msg 11 []))) = Ok tt.
Proof.
  destruct (X11_listed_id_round_trip raw_parse store_12 (bare_msg 11 [])
              (mkSelectData 3 13)) as (H1 & _ & H2 & _);
    [reflexivity|reflexivity|].
  split; [exact H1|]. rewrite H2. reflexivity.
Defined.

Lemma X12_witness :
  exists e,
    GetEmailContents raw_parse (ms_server store_12) "12a"
    = Err ("invalid email ID: " +:+ e)
    /\ MarkAsRead store_12 "12a" = Err ("invalid email ID: " +:+ e).
Proof.
  destruct (X12_invalid_id_rejected raw_parse "12a") as [[_ Hiff] H].
  destruct H as [e He].
  - apply Hiff. right; left. vm_compute; reflexivity.
  - exists e. apply He.
Defined.

Lemma X13_witness :
  GetInbox store_ranged 2 false
  = Ok [email_of_msg (bare_msg 12 []); email_of_msg (bare_msg 11 [])]
  /\ inbox_range (NumMessages (mkSelectData 3 13)) 2 = (2, 3)
  /\ inbox_range (NumMessages (mkSelectData 3 13)) 0 = (3, 4)
  /\ inbox_range (NumMessages (mkSelectData 3 13)) (-1) = (1, 3).
Proof.
  destruct (X13_inbox_range store_ranged 2 false (mkSelectData 3 13))
    as (_ & Hget & _ & _ & _ & _ & _ & _ & Hpos & _); [reflexivity|reflexivity|].
  destruct (X13_inbox_range store_ranged 0 false (mkSelectData 3 13))
    as (_ & _ & _ & Hzero & _); [reflexivity|reflexivity|].
  destruct (X13_inbox_range store_ranged (-1) false (mkSelectData 3 13))
    as (_ & _ & _ & _ & _ & _ & _ & _ & _ & Hneg); [reflexivity|reflexivity|].
  split; [|split; [|split]].
  - rewrite Hget by (vm_compute; discriminate). vm_compute. reflexivity.
  - destruct Hpos as [-> _];
      [vm_compute; discriminate|vm_compute; split; [discriminate|reflexivity]
      |vm_compute; reflexivity].
  - apply Hzero; vm_compute; [discriminate|reflexivity|reflexivity].
  - apply Hneg; vm_compute; [discriminate|split; reflexivity|discriminate].
Defined.

Lemma X14_witness :
  GetInbox store_12 2 true
  = Ok [email_of_msg (bare_msg 12 []); email_of_msg (bare_msg 11 [])].
Proof.
  destruct (X14_inbox_result store_12 2 true (mkSelectData 3 13)
              [bare_msg 10 [FlagSeen]; bare_msg 11 []; bare_msg 12 []])
    as (emails & Hget & Heq & _).
  - reflexivity.
  - reflexivity.
  - vm_compute; discriminate.
  - reflexivity.
  - rewrite Hget, Heq. vm_compute; reflexivity.
Defined.

Lemma X15_witness : single_line "a b" = true.
Proof.
  apply (X15_preview_single_line ("a" +:+ tab +:+ "b") 10 "a b").
  vm_compute; reflexivity.
Defined.


Lemma X18_witness :
  mark_email_read store_12 args_13 = ToolResultText "Email 13 marked as read"
  /\ mark_email_read store_12 args_number
     = ToolResultError "Missing required parameter: email_id".
Proof.
  destruct (X18_mark_email_read store_12 args_13) as [H _].
  destruct (X18_mark_email_read store_12 args_number) as [_ H'].
  split.
  - apply H. exists "13", 13, (mkSelectData 3 13).
    repeat split; vm_compute; reflexivity.
  - apply H'. vm_compute; reflexivity.
Defined.

Lemma X19_witness :
  exists uid m rest, srv_fetch_uid_body inbox_12 uid = Ok (m :: rest).
Proof.
  destruct (X19_get_email_contents raw_parse marshal_subject inbox_12 args_13)
    as [H _].
  destruct (H "Hello") as (id & uid & m & rest & d & _ & _ & Hf & _).
  - vm_compute; reflexivity.
  - by exists uid, m, rest.
Defined.

Lemma X20_witness :
  exists p,
    string_field "preview"
      (new_email_params (email_of_msg (msg_of 13))
         (preview_of raw_parse (mailbox [13] 14 true) (email_of_msg (msg_of 13))))
    = Some p
    /\ len p <= 103 /\ single_line p = true.
Proof.
  apply (X20_notified_preview_bounded raw_parse (mailbox [13] 14 true)
           (checker_at 12) "new_email").
  apply elem_of_broadcasts. rewrite cycle_broadcasts, cycle_13.
  apply list_elem_of_here.
Defined.

Lemma X21_witness :
  broadcasts
    (checkForNewEmails raw_parse (mailbox [10; 11; 12] 14 true)
       (Start inbox_12 fresh_checker).1).2 = [].
Proof.
  destruct (X21_existing_mail_is_silent raw_parse inbox_12
              (mailbox [10; 11; 12] 14 true) fresh_checker 12)
    as (_ & H & _).
  - by eexists.
  - reflexivity.
  - vm_compute; reflexivity.
  - intros messages msg Hf Hin.
    cbn [mailbox srv_fetch_uid_range] in Hf. injection Hf as <-.
    repeat (apply elem_of_cons in Hin as [->|Hin]; [vm_compute; discriminate|]).
    by apply elem_of_nil in Hin.
  - exact H.
Defined.
